(** * The query-expression printer of faunadb-js ([src/Expr.js])

    A shallow embedding of [Expr], [Expr.prototype.toJSON] and of the
    pretty-printer [exprToString] (exported as [Expr.toString]), together
    with the properties of the printer that the specification states.

    Conventions of the embedding.
    - JavaScript strings are [string]s (byte strings); the printer's output
      is the UTF-8 text, so the marker glyph of [indent] is three bytes.
      [toUpperCase] is modelled on the ASCII letters.
    - JavaScript numbers are modelled on the integers, printed in decimal,
      which is what [String(n)] gives for an integer below 1e21.
    - A plain object is the list of its own enumerable properties, in the
      order in which [Object.keys] enumerates them.
    - The three module-level variables [keyPath], [compact] and
      [printDepth] form an explicit [state]; a [TypeError] raised by the
      code is the outcome [Throw], which carries the state at the throw.
    - [exprToString] recurses on the nesting of its argument; the embedding
      recurses on a fuel counter, one unit per call of [exprToString]. *)

From Stdlib Require Import String Ascii List ZArith Arith Bool Lia DecimalString.
Import ListNotations.
Open Scope string_scope.
Set Warnings "-register-all".

(** ** Characters and strings *)

Definition dquote : ascii := "034"%char.
Definition backslash : ascii := "092"%char.
Definition nl : string := String "010"%char EmptyString.

(** The glyph U+30FB that [indent] writes at the even positions. *)
Definition marker : string :=
  String (ascii_of_nat 227) (String (ascii_of_nat 131) (String (ascii_of_nat 187) EmptyString)).

(** [Array.prototype.join('')] on an array of strings. *)
Definition join (l : list string) : string := fold_right append "" l.

(** [String(i)] for an array index, [String(n)] for an integer. *)
Definition String_index (i : nat) : string := NilZero.string_of_uint (Nat.to_uint i).
Definition String_number (n : Z) : string := NilZero.string_of_int (Z.to_int n).

(** [c.toUpperCase()] for one character, as it is on the ASCII characters:
    the letters [a] to [z] go to [A] to [Z], the others stay.  Outside
    ASCII the source maps further letters, some of them to two characters;
    those are left as they are here. *)
Definition toUpperCase (c : ascii) : ascii :=
  let n := nat_of_ascii c in
  if ((97 <=? n) && (n <=? 122))%nat then ascii_of_nat (n - 32) else c.

(** [str.charAt(0).toUpperCase() + str.slice(1)] *)
Definition capitalize (str : string) : string :=
  match str with
  | EmptyString => EmptyString
  | String c rest => String (toUpperCase c) rest
  end.

(** [s.split(sep)] for a one-character separator. *)
Fixpoint split (sep : ascii) (s : string) : list string :=
  match s with
  | EmptyString => [EmptyString]
  | String c rest =>
      if Ascii.eqb c sep then EmptyString :: split sep rest
      else match split sep rest with
           | seg :: segs => String c seg :: segs
           | [] => [String c EmptyString]
           end
  end.

(** [JSON.stringify] on a string: quotes, and escapes for the quote, the
    backslash and the control characters. *)
Definition hexDigit (n : nat) : ascii :=
  if (n <? 10)%nat then ascii_of_nat (48 + n) else ascii_of_nat (87 + n).

Definition quoteChar (c : ascii) : string :=
  let n := nat_of_ascii c in
  if Ascii.eqb c dquote then String backslash (String dquote "")
  else if Ascii.eqb c backslash then String backslash (String backslash "")
  else if (n =? 8)%nat then String backslash "b"
  else if (n =? 9)%nat then String backslash "t"
  else if (n =? 10)%nat then String backslash "n"
  else if (n =? 12)%nat then String backslash "f"
  else if (n =? 13)%nat then String backslash "r"
  else if (n <? 32)%nat then
    String backslash ("u00" ++ String (hexDigit (n / 16)) (String (hexDigit (n mod 16)) ""))
  else String c "".

Fixpoint quoteChars (s : string) : string :=
  match s with
  | EmptyString => EmptyString
  | String c rest => quoteChar c ++ quoteChars rest
  end.

Definition JSON_stringify (s : string) : string :=
  String dquote (quoteChars s ++ String dquote "").

(** ** Values

    The values [exprToString] receives.  [VExpr raw] is an object made by
    [new Expr(raw)]: an instance of [Expr] whose one own property is [raw].
    [VValue value shown] is an instance of a subclass of [Expr] that carries
    an own property [value] (the classes of [values.js]: Ref, FaunaTime, ...);
    those classes are defined outside [Expr.js], and [shown] is the text
    their [toString()] returns.  Functions and BigInts are left out. *)

Inductive value : Type :=
| VUndefined
| VNull
| VBool (b : bool)
| VNum (n : Z)
| VStr (s : string)
| VSym (description : string)
| VArr (items : list value)
| VObj (props : list (string * value))
| VExpr (raw : value)
| VValue (value_ : value) (shown : string).

(** [expr instanceof Expr] *)
Definition instanceofExpr (expr : value) : bool :=
  match expr with
  | VExpr _ | VValue _ _ => true
  | _ => false
  end.

(** [expr == null] *)
Definition isNullish (expr : value) : bool :=
  match expr with
  | VUndefined | VNull => true
  | _ => false
  end.

Fixpoint indexed (i : nat) (l : list value) : list (string * value) :=
  match l with
  | [] => []
  | v :: rest => (String_index i, v) :: indexed (S i) rest
  end.

Fixpoint chars (s : string) : list value :=
  match s with
  | EmptyString => []
  | String c rest => VStr (String c "") :: chars rest
  end.

(** The own enumerable string-keyed properties of a value, in the order of
    [Object.keys]; a primitive is first converted to its wrapper object. *)
Definition ownProps (v : value) : list (string * value) :=
  match v with
  | VObj props => props
  | VExpr r => [("raw", r)]
  | VValue x _ => [("value", x)]
  | VArr items => indexed 0 items
  | VStr s => indexed 0 (chars s)
  | _ => []
  end.

(** [Object.keys(v)]; [None] is the [TypeError] on [null] and [undefined]. *)
Definition Object_keys (v : value) : option (list string) :=
  if isNullish v then None else Some (map fst (ownProps v)).

Fixpoint assoc (k : string) (l : list (string * value)) : option value :=
  match l with
  | [] => None
  | (k', v) :: rest => if String.eqb k k' then Some v else assoc k rest
  end.

(** [v[key]] for an own key; [undefined] when there is no such property. *)
Definition getProp (v : value) (key : string) : value :=
  match assoc key (ownProps v) with
  | Some x => x
  | None => VUndefined
  end.

(** [key in v] for the two keys the printer tests, [value] and [object],
    neither of which is inherited from [Object.prototype]. *)
Definition hasProp (key : string) (v : value) : bool :=
  existsb (String.eqb key) (map fst (ownProps v)).

(** ** [Expr] and [toJSON] (lines 10-16) *)

(** [new Expr(obj)]: the constructor stores [obj] in the property [raw]. *)
Definition new_Expr (obj : value) : value := VExpr obj.

(** [Expr.prototype.toJSON]: [return this.raw]. *)
Definition toJSON (this : value) : value := getProp this "raw".

(** ** Name resolution (lines 42-48 and 175-182) *)

(** Lines 18-41.  The printer never reads this list. *)
Definition varArgsFunctions : list string :=
  [ "Do"; "Call"; "Union"; "Intersection"; "Difference"; "Equals"; "Add";
    "BitAnd"; "BitOr"; "BitXor"; "Divide"; "Max"; "Min"; "Modulo"; "Multiply";
    "Subtract"; "LT"; "LTE"; "GT"; "GTE"; "And"; "Or" ].

Definition specialCases : list (string * string) :=
  [ ("is_nonempty", "IsNonEmpty");
    ("lt", "LT");
    ("lte", "LTE");
    ("gt", "GT");
    ("gte", "GTE") ].

(** [specialCases] is an object literal, so a property read on it also finds
    the members of [Object.prototype]. *)
Definition objectPrototype : list string :=
  [ "constructor"; "hasOwnProperty"; "isPrototypeOf"; "propertyIsEnumerable";
    "toLocaleString"; "toString"; "valueOf"; "__proto__";
    "__defineGetter__"; "__defineSetter__"; "__lookupGetter__"; "__lookupSetter__" ].

(** The value of [fn]: a string, or a member of [Object.prototype]. *)
Inductive fnName : Type :=
| FnStr (s : string)
| FnProto (member : string).

Fixpoint lookupTable (k : string) (l : list (string * string)) : option string :=
  match l with
  | [] => None
  | (k', v) :: rest => if String.eqb k k' then Some v else lookupTable k rest
  end.

(** [key.split('_').map(capitalize).join('')] *)
Definition pascalCase (key : string) : string :=
  join (map capitalize (split "_" key)).

(** [specialCases[key] || key.split('_')...join('')]: every own entry of the
    table is a non-empty string and every inherited member is an object, so
    the left operand is taken whenever the property is found. *)
Definition resolve (key : string) : fnName :=
  match lookupTable key specialCases with
  | Some name => FnStr name
  | None =>
      if existsb (String.eqb key) objectPrototype then FnProto key
      else FnStr (pascalCase key)
  end.

(** [fn + '(']'s conversion of [fn] to a string; for a built-in function the
    text is the one V8 prints. *)
Definition String_fn (fn : fnName) : string :=
  match fn with
  | FnStr s => s
  | FnProto member =>
      if String.eqb member "__proto__" then "[object Object]"
      else "function " ++ (if String.eqb member "constructor" then "Object" else member)
           ++ "() { [native code] }"
  end.

(** [fn === name] *)
Definition fnIs (fn : fnName) (name : string) : bool :=
  match fn with
  | FnStr s => String.eqb s name
  | FnProto _ => false
  end.

(** [['Filter', 'Map', 'Foreach'].indexOf(fn) != -1] (line 207) *)
Definition shouldReverseArgs (fn : fnName) : bool :=
  existsb (fnIs fn) ["Filter"; "Map"; "Foreach"].

(** ** The printer's state (lines 50-52) and its outcomes *)

Inductive pathKey : Type :=
| KIdx (i : nat)
| KStr (key : string).

Record state : Type := mkState {
  keyPath : list pathKey;
  compact : bool;
  printDepth : nat
}.

Definition initial : state := mkState [] false 0.

Inductive outcome (A : Type) : Type :=
| Ok (a : A) (st : state)
| Throw (st : state)
| OutOfFuel.
Arguments Ok {A} a st.
Arguments Throw {A} st.
Arguments OutOfFuel {A}.

Definition M (A : Type) : Type := state -> outcome A.

Definition ret {A} (a : A) : M A := fun st => Ok a st.

Definition bind {A B} (m : M A) (f : A -> M B) : M B :=
  fun st =>
    match m st with
    | Ok a st' => f a st'
    | Throw st' => Throw st'
    | OutOfFuel => OutOfFuel
    end.

Definition throwTypeError {A} : M A := fun st => Throw st.
Definition outOfFuel {A} : M A := fun _ => OutOfFuel.

Declare Scope printer_scope.
Delimit Scope printer_scope with printer.
Notation "x <- m ;; k" := (bind m (fun x => k))
  (at level 61, m at next level, right associativity) : printer_scope.
Notation "m ;; k" := (bind m (fun _ => k))
  (at level 61, right associativity) : printer_scope.
Open Scope printer_scope.

Definition getCompact : M bool := fun st => Ok (compact st) st.
Definition setCompact (c : bool) : M unit :=
  fun st => Ok tt (mkState (keyPath st) c (printDepth st)).
Definition getKeyPath : M (list pathKey) := fun st => Ok (keyPath st) st.
Definition push (k : pathKey) : M unit :=
  fun st => Ok tt (mkState (keyPath st ++ [k]) (compact st) (printDepth st)).
Definition pop : M unit :=
  fun st => Ok tt (mkState (removelast (keyPath st)) (compact st) (printDepth st)).
Definition enter : M unit :=
  fun st => Ok tt (mkState (keyPath st) (compact st) (printDepth st + 1)).
(** [printDepth -= 1]; it only ever follows [printDepth += 1]. *)
Definition leave : M unit :=
  fun st => Ok tt (mkState (keyPath st) (compact st) (printDepth st - 1)).

(** [array.map(function (x, i) {...})], the callback run in index order. *)
Fixpoint mapM {A B} (f : A -> nat -> M B) (i : nat) (l : list A) : M (list B) :=
  match l with
  | [] => ret []
  | x :: rest =>
      y <- f x i ;;
      ys <- mapM f (S i) rest ;;
      ret (y :: ys)
  end.

(** ** [indent], [eol], [isCompact] (lines 54-77) *)

(** The loop of [indent]: [count] more rounds from index [i]. *)
Fixpoint indentLoop (i count : nat) (acc : string) : string :=
  match count with
  | O => acc
  | S count' => indentLoop (S i) count' (acc ++ (if Nat.odd i then " " else marker))
  end.

(** [indent(input)] for a function [input]. *)
Definition indentBlock {A} (input : M A) : M A :=
  enter ;;
  output <- input ;;
  leave ;;
  ret output.

(** What [indent(input)] returns for a string [input], given the values of
    [compact] and [printDepth]. *)
Definition indentText (c : bool) (depth : nat) (input : string) : string :=
  if c then input else indentLoop 0 (2 * depth) "" ++ input.

Definition indent (input : string) : M string :=
  fun st => Ok (indentText (compact st) (printDepth st) input) st.

(** What [eol(input)] returns, given the value of [compact]. *)
Definition eolText (c : bool) (input : string) : string :=
  input ++ (if c then "" else nl).

Definition eol (input : string) : M string :=
  fun st => Ok (eolText (compact st) input) st.

Definition isCompact (expr : value) : bool := negb (instanceofExpr expr).

(** ** Options (lines 100-110)

    The second argument of [exprToString]: absent (or falsy), [true], or an
    object with the fields [compact] and [map].  The hook [map] is a pure
    function of the rendered text and of the key path. *)

Record optionsObj : Type := mkOptions {
  opt_compact : bool;
  opt_map : option (string -> list pathKey -> string)
}.

Inductive options : Type :=
| OptNone
| OptTrue
| OptObj (o : optionsObj).

Definition normalize (options : options) : optionsObj :=
  match options with
  | OptNone => mkOptions false None
  | OptTrue => mkOptions true None
  | OptObj o => o
  end.

(** [options.map || function (str) { return str }] *)
Definition mapOf (o : optionsObj) : string -> list pathKey -> string :=
  match opt_map o with
  | Some f => f
  | None => fun str _ => str
  end.

(** ** The printer (lines 79-215) *)

(** [(compact && i === length - 1 ? '' : eol(','))] *)
Definition commaText (c : bool) (i length : nat) : string :=
  if c && (i =? length - 1)%nat then "" else eolText c ",".

Definition comma (i length : nat) : M string :=
  fun st => Ok (commaText (compact st) i length) st.

Section Closures.
(** The variables the inner functions of [exprToString] close over:
    [map], and the recursive call [exprToString(_, options)]. *)
Variable map_ : string -> list pathKey -> string.
Variable recur : value -> M string.

(** The callback of [array.map] in [printArray] (lines 121-126). *)
Definition printItem (toStr : value -> M string) (length : nat)
    (value : value) (i : nat) : M string :=
  push (KIdx i) ;;
  str <- toStr value ;;
  path <- getKeyPath ;;
  pop ;;
  ind <- indent (map_ str path) ;;
  sep <- comma i length ;;
  ret (ind ++ sep).

Definition printArray (array : list value) (toStr : value -> M string) : M string :=
  match array with
  | [] => ret "[]"
  | _ =>
      open <- eol "[" ;;
      body <- indentBlock
                (items <- mapM (printItem toStr (List.length array)) 0 array ;;
                 ret (join items)) ;;
      close <- indent "]" ;;
      ret (open ++ body ++ close)
  end.

(** The callback of [keys.map] in [printObject] (lines 155-163). *)
Definition printField (obj : value) (length : nat) (key : string) (i : nat) : M string :=
  push (KStr key) ;;
  str <- recur (getProp obj key) ;;
  path <- getKeyPath ;;
  pop ;;
  c <- getCompact ;;
  ind <- indent (key ++ ":" ++ (if c then "" else " ") ++ map_ str path) ;;
  sep <- comma i length ;;
  ret (ind ++ sep).

Definition printObject (obj : value) : M string :=
  match Object_keys obj with
  | None => throwTypeError
  | Some keys =>
      match keys with
      | [] => ret "{}"
      | _ =>
          open <- eol "{" ;;
          body <- indentBlock
                    (items <- mapM (printField obj (List.length keys)) 0 keys ;;
                     ret (join items)) ;;
          close <- indent "}" ;;
          ret (open ++ body ++ close)
      end
  end.

(** The first argument of [map] in the call branch (lines 195-199). *)
Definition printPayload (fn : fnName) (key : string) (arg : value) : M string :=
  if fnIs fn "Let" && String.eqb key "let" then
    match arg with
    | VArr items => printArray items printObject
    | _ => printObject arg
    end
  else recur arg.

(** The callback of [keys.map] in the call branch (lines 191-204). *)
Definition printArg (expr : value) (fn : fnName) (length : nat)
    (key : string) (i : nat) : M string :=
  push (KStr key) ;;
  str <- printPayload fn key (getProp expr key) ;;
  path <- getKeyPath ;;
  pop ;;
  ind <- indent (map_ str path) ;;
  sep <- comma i length ;;
  ret (ind ++ sep).

(** The array branch (lines 133-143). *)
Definition printSequence (items : list value) : M string :=
  wasCompact <- getCompact ;;
  (if negb wasCompact then setCompact (forallb isCompact items) else ret tt) ;;
  out <- printArray items recur ;;
  setCompact wasCompact ;;
  ret out.

(** The call branch (lines 174-214); [None] for [keys[0]] is the
    [TypeError] of [keys[0].split] on [undefined]. *)
Definition printCall (optCompact : bool) (expr : value) : M string :=
  let keys := map fst (ownProps expr) in
  match keys with
  | [] => throwTypeError
  | key0 :: _ =>
      let fn := resolve key0 in
      wasCompact <- getCompact ;;
      (if negb wasCompact
       then setCompact (optCompact || forallb (fun key => isCompact (getProp expr key)) keys)
       else ret tt) ;;
      args <- indentBlock (mapM (printArg expr fn (List.length keys)) 0 keys) ;;
      let args := if shouldReverseArgs fn then rev args else args in
      open <- eol (String_fn fn ++ "(") ;;
      close <- indent ")" ;;
      setCompact wasCompact ;;
      ret (open ++ join args ++ close)
  end.
End Closures.

(** The body of [exprToString] from line 87 on, for [expr] already
    unwrapped; [self] is [exprToString] itself, for the recursive calls. *)
Definition printBody (self : value -> options -> M string)
    (expr : value) (options : options) : M string :=
  match expr with
  | VUndefined => ret "undefined"
  | VNull => ret "null"
  | VStr s => ret (JSON_stringify s)
  | VBool b => ret (if b then "true" else "false")
  | VNum n => ret (String_number n)
  | VSym description => ret ("Symbol(" ++ description ++ ")")
  | _ =>
      let options := normalize options in
      let map_ := mapOf options in
      let recur := fun item => self item (OptObj options) in
      match expr with
      | VArr items => printSequence map_ recur items
      | _ =>
          if hasProp "object" expr
          then printObject map_ recur (getProp expr "object")
          else printCall map_ recur (opt_compact options) expr
      end
  end.

(** Lines 80-85, then the body. *)
Fixpoint exprToString (fuel : nat) (expr : value) (options : options) {struct fuel} : M string :=
  match fuel with
  | O => outOfFuel
  | S fuel' =>
      match expr with
      | VValue _ shown => ret shown
      | VExpr r => printBody (exprToString fuel') r options
      | _ => printBody (exprToString fuel') expr options
      end
  end.

(** [Expr.toString(expr, options)] called with the module freshly loaded. *)
Definition render (fuel : nat) (expr : value) (options : options) : outcome string :=
  exprToString fuel expr options initial.

(** ** Nesting height and well-formed trees *)

(** The nesting height of a value: the fuel that renders it. *)
Fixpoint height (v : value) : nat :=
  match v with
  | VArr items => S (fold_right (fun x n => Nat.max (height x) n) 0 items)
  | VObj props => S (fold_right (fun kv n => Nat.max (height (snd kv)) n) 0 props)
  | VExpr r => S (height r)
  | VValue x _ => S (height x)
  | _ => 1
  end.

(** The properties of a record that is dispatched on its keys (lines
    170-205): under the key [object] a payload for [printObject]; else at
    least one key, first key [key0], and under every key an expression, or
    under [let] in a [Let] call a record or an array of records. *)
Definition wfProps (wfE wfR : value -> bool) (props : list (string * value)) : bool :=
  if existsb (String.eqb "object") (map fst props)
  then forallb (fun kv => if String.eqb (fst kv) "object" then wfR (snd kv) else true) props
  else match props with
       | [] => false
       | (key0, _) :: _ =>
           forallb (fun kv =>
                      if fnIs (resolve key0) "Let" && String.eqb (fst kv) "let"
                      then match snd kv with
                           | VArr items => forallb wfR items
                           | _ => wfR (snd kv)
                           end
                      else wfE (snd kv)) props
       end.

(** [wfExpr v]: no record that [exprToString(v)] prints as a call is without
    keys, and no payload that it hands to [printObject] is [null] or
    [undefined].  [wfBody] is the same for a value already unwrapped, and
    [wfRecord] for a payload of [printObject]. *)
Fixpoint wfExpr (v : value) : bool :=
  match v with
  | VValue _ _ => true
  | VExpr r => wfBody r
  | VArr items => forallb wfExpr items
  | VObj props => wfProps wfExpr wfRecord props
  | _ => true
  end
with wfBody (v : value) : bool :=
  match v with
  | VArr items => forallb wfExpr items
  | VObj props => wfProps wfExpr wfRecord props
  | VExpr r => wfExpr r
  | VValue x _ => wfExpr x
  | _ => true
  end
with wfRecord (v : value) : bool :=
  match v with
  | VUndefined | VNull => false
  | VArr items => forallb wfExpr items
  | VObj props => forallb (fun kv => wfExpr (snd kv)) props
  | VExpr r => wfExpr r
  | VValue x _ => wfExpr x
  | _ => true
  end.

(** ** The specification's notion of a simple child

    Section 4.2 of the specification: a child is simple when it is a leaf
    scalar, not a nested composite (sequence or record) or Call.  This
    definition follows the specification's words and is compared with
    [isCompact] below. *)
Fixpoint specSimple (v : value) : bool :=
  match v with
  | VArr _ | VObj _ => false
  | VExpr r => specSimple r
  | _ => true
  end.

(** ** Layouts: the text of a composite node, from the texts of its children

    These definitions state what the printer writes around the texts of
    the children; the theorems below prove that [exprToString] writes it. *)

(** The text a computation returned, if it returned. *)
Definition result {A} (r : outcome A) : option A :=
  match r with
  | Ok a _ => Some a
  | _ => None
  end.

(** The results of running [run] on each element and its index. *)
Fixpoint collect {A B} (run : A -> nat -> option B) (i : nat) (l : list A) : option (list B) :=
  match l with
  | [] => Some []
  | x :: rest =>
      match run x i, collect run (S i) rest with
      | Some y, Some ys => Some (y :: ys)
      | _, _ => None
      end
  end.

(** The state in which the child under the key [k] is rendered, [c] being
    the flag of the parent: the key pushed, one level deeper. *)
Definition childState (st : state) (c : bool) (k : pathKey) : state :=
  mkState (keyPath st ++ [k]) c (printDepth st + 1).

(** One entry per child, the [i]-th of [length]: its text through the hook,
    indented, and the separator. *)
Fixpoint entries (hook : string -> list pathKey -> string) (path : list pathKey)
    (c : bool) (depth length i : nat) (children : list (pathKey * string)) : list string :=
  match children with
  | [] => []
  | (k, text) :: rest =>
      (indentText c depth (hook text (path ++ [k])%list) ++ commaText c i length)
        :: entries hook path c depth length (S i) rest
  end.

Definition sequenceText (hook : string -> list pathKey -> string) (path : list pathKey)
    (c : bool) (depth : nat) (texts : list string) : string :=
  let n := List.length texts in
  eolText c "["
  ++ join (entries hook path c (depth + 1) n 0 (combine (map KIdx (seq 0 n)) texts))
  ++ indentText c depth "]".

Definition callText (hook : string -> list pathKey -> string) (path : list pathKey)
    (c : bool) (depth : nat) (fn : fnName) (keys : list string) (texts : list string) : string :=
  let args := entries hook path c (depth + 1) (List.length keys) 0
                (combine (map KStr keys) texts) in
  eolText c (String_fn fn ++ "(")
  ++ join (if shouldReverseArgs fn then rev args else args)
  ++ indentText c depth ")".

(** One entry per field of an object literal. *)
Fixpoint fields (hook : string -> list pathKey -> string) (path : list pathKey)
    (c : bool) (depth length i : nat) (children : list (string * string)) : list string :=
  match children with
  | [] => []
  | (key, text) :: rest =>
      (indentText c depth
         (key ++ ":" ++ (if c then "" else " ") ++ hook text (path ++ [KStr key])%list)
       ++ commaText c i length)
        :: fields hook path c depth length (S i) rest
  end.

Definition objectText (hook : string -> list pathKey -> string) (path : list pathKey)
    (c : bool) (depth : nat) (keys : list string) (texts : list string) : string :=
  eolText c "{"
  ++ join (fields hook path c (depth + 1) (List.length keys) 0 (combine keys texts))
  ++ indentText c depth "}".

(** ** Two properties of computations *)

(** [restores m]: when [m] completes, the state is the one it started in. *)
Definition restores {A} (m : M A) : Prop :=
  forall st a st', m st = Ok a st' -> st' = st.

(** [succeeds m]: [m] completes, in every state. *)
Definition succeeds {A} (m : M A) : Prop :=
  forall st, exists a st', m st = Ok a st'.

(** [extends m m']: whatever [m] returns or raises, [m'] does the same. *)
Definition extends {A} (m m' : M A) : Prop :=
  forall st, m st <> OutOfFuel -> m' st = m st.

(** Two states in compact mode that differ at most in [printDepth]. *)
Definition compactTwins (st st' : state) : Prop :=
  keyPath st = keyPath st' /\ compact st = true /\ compact st' = true.

Definition anyValue {A} (a : A) : Prop := True.

(** [depthBlind Q m]: run from two such states, [m] ends the same way; when
    it returns, it returns the same value, which satisfies [Q], and leaves
    two such states. *)
Definition depthBlind {A} (Q : A -> Prop) (m : M A) : Prop :=
  forall st st', compactTwins st st' ->
    match m st, m st' with
    | Ok a s, Ok a' s' => a = a' /\ Q a /\ compactTwins s s'
    | Throw _, Throw _ => True
    | OutOfFuel, OutOfFuel => True
    | _, _ => False
    end.

(** ** Reading a string literal back

    The inverse of [quoteChars], used to state that the literal written by
    [JSON.stringify] determines the string.  It is not part of [Expr.js]. *)

Definition hexValue (c : ascii) : option nat :=
  let n := nat_of_ascii c in
  if ((48 <=? n) && (n <=? 57))%nat then Some (n - 48)
  else if ((97 <=? n) && (n <=? 102))%nat then Some (n - 87)
  else None.

Fixpoint unquoteChars (s : string) : option string :=
  match s with
  | EmptyString => Some EmptyString
  | String c rest =>
      if Ascii.eqb c backslash then
        match rest with
        | EmptyString => None
        | String e rest' =>
            if Ascii.eqb e dquote then option_map (String dquote) (unquoteChars rest')
            else if Ascii.eqb e backslash then option_map (String backslash) (unquoteChars rest')
            else if Ascii.eqb e "b" then option_map (String (ascii_of_nat 8)) (unquoteChars rest')
            else if Ascii.eqb e "t" then option_map (String (ascii_of_nat 9)) (unquoteChars rest')
            else if Ascii.eqb e "n" then option_map (String (ascii_of_nat 10)) (unquoteChars rest')
            else if Ascii.eqb e "f" then option_map (String (ascii_of_nat 12)) (unquoteChars rest')
            else if Ascii.eqb e "r" then option_map (String (ascii_of_nat 13)) (unquoteChars rest')
            else if Ascii.eqb e "u" then
              match rest' with
              | String _ (String _ (String h (String l rest''))) =>
                  match hexValue h, hexValue l with
                  | Some a, Some b =>
                      option_map (String (ascii_of_nat (16 * a + b))) (unquoteChars rest'')
                  | _, _ => None
                  end
              | _ => None
              end
            else None
        end
      else option_map (String c) (unquoteChars rest)
  end.

(** The character codes of a string. *)
Definition codes (s : string) : list nat := map nat_of_ascii (list_ascii_of_string s).

(** ** Texts and trees without line break *)

(** [noBreak s]: the string [s] holds no line feed. *)
Definition noBreak (s : string) : bool := negb (existsb (Nat.eqb 10) (codes s)).

(** [cleanTree v]: no key, no symbol description and no text of an opaque
    value anywhere in [v] holds a line feed (strings may: they are printed
    escaped). *)
Fixpoint cleanTree (v : value) : bool :=
  match v with
  | VSym description => noBreak description
  | VArr items => forallb cleanTree items
  | VObj props => forallb (fun kv => noBreak (fst kv) && cleanTree (snd kv)) props
  | VExpr r => cleanTree r
  | VValue x shown => noBreak shown && cleanTree x
  | _ => true
  end.

(** [oneLine P m]: run in compact mode, [m] leaves the mode on, and what it
    returns satisfies [P]. *)
Definition oneLine {A} (P : A -> Prop) (m : M A) : Prop :=
  forall st a st', compact st = true -> m st = Ok a st' -> P a /\ compact st' = true.

Definition isLine (s : string) : Prop := noBreak s = true.

(** ** The state after a [TypeError] *)

(** [ahead st st']: [st'] has the key path of [st] with zero or more keys
    pushed, and a depth not below that of [st]. *)
Definition ahead (st st' : state) : Prop :=
  (exists pushed, keyPath st' = (keyPath st ++ pushed)%list)
  /\ printDepth st <= printDepth st'.

(** [raisesAhead m]: when [m] raises, it leaves a state ahead of the one it
    started in. *)
Definition raisesAhead {A} (m : M A) : Prop :=
  forall st st', m st = Throw st' -> ahead st st'.

(** * The HTTP client (lines 336-571 of [src/Expr.js])

    The pure parts of [Client]: how a response is turned into a result or
    an error, how the query parameters are cleaned and logged, how a logged
    text is indented and how the options of a request are put together.
    The network call itself, the loggers and the modules [./errors],
    [./objects] and [./_json] are outside. *)

Module Client.

(** [array.join(sep)] on an array of strings. *)
Fixpoint joinWith (sep : string) (l : list string) : string :=
  match l with
  | [] => ""
  | [x] => x
  | x :: rest => x ++ sep ++ joinWith sep rest
  end.

Fixpoint sequence {A} (l : list (option A)) : option (list A) :=
  match l with
  | [] => Some []
  | Some x :: rest => option_map (cons x) (sequence rest)
  | None :: _ => None
  end.

(** The conversion of a value to a string in a template literal; [None] is
    the [TypeError] on a symbol, and on a record whose own [toString] is
    not a function.  An array is its elements joined by commas, [null] and
    [undefined] among them giving the empty string. *)
Fixpoint ToString (v : value) : option string :=
  match v with
  | VUndefined => Some "undefined"
  | VNull => Some "null"
  | VBool b => Some (if b then "true" else "false")
  | VNum n => Some (String_number n)
  | VStr s => Some s
  | VSym _ => None
  | VArr items =>
      option_map (joinWith ",")
        (sequence (map (fun item => if isNullish item then Some "" else ToString item) items))
  | VObj props =>
      if existsb (String.eqb "toString") (map fst props) then None
      else Some "[object Object]"
  | VExpr _ => Some "[object Object]"
  | VValue _ shown => Some shown
  end.

(** The truth value of a value in a condition. *)
Definition truthy (v : value) : bool :=
  match v with
  | VUndefined | VNull => false
  | VBool b => b
  | VNum n => negb (n =? 0)%Z
  | VStr s => negb (String.eqb s "")
  | _ => true
  end.

Definition isUndefined (v : value) : bool :=
  match v with
  | VUndefined => true
  | _ => false
  end.

(** ** [handleResponse] (lines 534-557) *)

(** The classes of [./errors]. *)
Inductive errorClass : Type :=
| BadRequest | Unauthorized | PermissionDenied | NotFound
| MethodNotAllowed | InternalError | UnavailableError | FaunaHTTPError.

(** What [handleResponse] does: it returns a value, or throws an error of
    some class made from the response object, or fails with the
    [TypeError] of a property read on [null] or [undefined]. *)
Inductive reply : Type :=
| Returns (v : value)
| Raises (cls : errorClass) (response_object : value)
| TypeError.

Definition handleResponse (code : Z) (response_object : value) : reply :=
  if ((200 <=? code) && (code <=? 299))%Z then
    if isNullish response_object then TypeError
    else Returns (getProp response_object "resource")
  else if (code =? 400)%Z then Raises BadRequest response_object
  else if (code =? 401)%Z then Raises Unauthorized response_object
  else if (code =? 403)%Z then Raises PermissionDenied response_object
  else if (code =? 404)%Z then Raises NotFound response_object
  else if (code =? 405)%Z then Raises MethodNotAllowed response_object
  else if (code =? 500)%Z then Raises InternalError response_object
  else if (code =? 503)%Z then Raises UnavailableError response_object
  else Raises FaunaHTTPError response_object.

(** ** [removeUndefinedValues] and [queryStringForLogging] (lines 559-571)

    [object] is a plain object, given by its own properties, which are what
    [for (const key in object)] visits. *)

(** [res[key] = val] on the fresh object [res = {}]: the assignment makes an
    own property of [res] for every key but [__proto__].  That key is the
    one accessor property that [res] inherits from [Object.prototype], so
    the assignment runs the inherited setter and [res] gets no own property.
    The setter does nothing when [val] is a primitive value and takes the
    prototype away from [res] when [val] is [null]; when [val] is an object
    it becomes the prototype of [res], and the later assignments go through
    it.  A value has no prototype here, so the properties below are stated
    for the objects of [settable]. *)
Definition assigns (key : string) : bool := negb (String.eqb key "__proto__").

(** [typeof v === 'object' && v !== null] *)
Definition isObject (v : value) : bool :=
  match v with
  | VArr _ | VObj _ | VExpr _ | VValue _ _ => true
  | _ => false
  end.

(** No own property [__proto__] of the object holds an object. *)
Definition settable (object : list (string * value)) : bool :=
  forallb (fun kv => assigns (fst kv) || negb (isObject (snd kv))) object.

(** The test of line 567 and the assignment of line 568, for one property of
    [object]: whether [res] has the property afterwards. *)
Definition kept (kv : string * value) : bool :=
  negb (isUndefined (snd kv)) && assigns (fst kv).

Definition removeUndefinedValues (object : list (string * value)) : value :=
  match filter kept object with
  | [] => VNull
  | res => VObj res
  end.

Definition queryStringForLogging (query : value) : option string :=
  if truthy query then
    option_map (fun parts => "?" ++ joinWith "&" parts)
      (sequence (map (fun key => option_map (fun text => key ++ "=" ++ text)
                                   (ToString (getProp query key)))
                     (map fst (ownProps query))))
  else Some "".

(** [if (query) query = removeUndefinedValues(query)] (lines 476-477), for
    a query that is absent or a plain object. *)
Definition cleanQuery (query : option (list (string * value))) : value :=
  match query with
  | None => VUndefined
  | Some object => removeUndefinedValues object
  end.

Definition settableQuery (query : option (list (string * value))) : bool :=
  match query with
  | None => true
  | Some object => settable object
  end.

(** ** [_log] (lines 461-471): the text handed to the loggers *)

Definition logged (indented : bool) (text : string) : string :=
  if indented then "  " ++ joinWith (nl ++ "  ") (split "010" text) else text.

(** ** The options of a request (lines 473-477 and 507-521) *)

(** A path is a string or a [Ref], whose [value] is taken. *)
Inductive pathArg : Type :=
| PathStr (s : string)
| PathRef (value_ : string).

Record client : Type := mkClient {
  _baseUrl : string;
  _timeout : Z;
  _secret : value
}.

Record request : Type := mkRequest {
  method : string;
  baseUrl : string;
  url : string;
  auth : value;
  qs : value;
  body : value;
  timeout : Z
}.

Section Requests.
(** [toJSON] of [./_json]. *)
Variable toJSON_ : value -> value.

(** The argument of [request] in a call of [_execute]. *)
Definition execute (this : client) (action : string) (path : pathArg) (data : value)
    (query : option (list (string * value))) : request :=
  let path := match path with PathRef v => v | PathStr s => s end in
  let query := cleanQuery query in
  let path := if String.eqb path "" then "/" else path in
  mkRequest action (_baseUrl this) path (_secret this) query (toJSON_ data) (_timeout this).

Definition get this path query := execute this "GET" path VNull query.
Definition post this path data := execute this "POST" path data None.
Definition put this path data := execute this "PUT" path data None.
Definition patch this path data := execute this "PATCH" path data None.
Definition delete this path data := execute this "DELETE" path data None.
Definition query this expression := execute this "POST" (PathStr "") expression None.
Definition ping this scope timeout_ :=
  get this (PathStr "ping") (Some [("scope", scope); ("timeout", timeout_)]).
End Requests.

End Client.

(** * Properties *)

(** ** Strings *)

Example split_examples :
  split "_" "select_all" = ["select"; "all"] /\ split "_" "_a_" = [""; "a"; ""]
  /\ split "_" "" = [""].
Proof. repeat split; reflexivity. Qed.

Example String_examples :
  String_number 12 = "12" /\ String_number (-3) = "-3" /\ String_number 0 = "0"
  /\ String_index 10 = "10".
Proof. repeat split; reflexivity. Qed.

Example JSON_stringify_example :
  JSON_stringify ("a" ++ String dquote ("b" ++ nl))
  = String dquote ("a" ++ String backslash (String dquote ("b" ++ String backslash ("n" ++ String dquote "")))).
Proof. reflexivity. Qed.

(** The loop of [indent] writes the marker and a blank, [depth] times. *)
Lemma indentLoop_pairs depth : forall i acc,
  Nat.even i = true ->
  indentLoop i (2 * depth) acc = acc ++ join (repeat (marker ++ " ") depth).
Proof.
  induction depth as [| depth IH]; intros i acc Hi.
  - simpl. induction acc as [| c acc IHacc]; simpl; [reflexivity | f_equal; exact IHacc].
  - replace (2 * S depth) with (S (S (2 * depth))) by lia.
    cbn [indentLoop]. rewrite <- Nat.negb_even, Hi. cbn [negb].
    rewrite Nat.odd_succ, Hi.
    rewrite IH by (rewrite !Nat.even_succ_succ; exact Hi).
    cbn [repeat join fold_right].
    induction acc as [| c acc IHacc]; simpl; [reflexivity | f_equal; exact IHacc].
Qed.

Lemma indentText_expanded depth input :
  indentText false depth input = join (repeat (marker ++ " ") depth) ++ input.
Proof. unfold indentText. rewrite (indentLoop_pairs depth 0 "" eq_refl). reflexivity. Qed.

Lemma append_assoc (s1 s2 s3 : string) : (s1 ++ s2) ++ s3 = s1 ++ (s2 ++ s3).
Proof. induction s1 as [| c s1 IH]; simpl; [reflexivity | rewrite IH; reflexivity]. Qed.

Lemma append_nil_r (s : string) : s ++ "" = s.
Proof. induction s as [| c s IH]; simpl; [reflexivity | rewrite IH; reflexivity]. Qed.

(** ** The monad *)

Lemma bind_Ok_inv {A B} (m : M A) (f : A -> M B) st b st2 :
  bind m f st = Ok b st2 ->
  exists a st1, m st = Ok a st1 /\ f a st1 = Ok b st2.
Proof.
  unfold bind. destruct (m st) as [a st1 | st1 | ]; try discriminate.
  intros H. exists a, st1. split; [reflexivity | exact H].
Qed.

Lemma bind_Ok {A B} (m : M A) (f : A -> M B) st a st1 :
  m st = Ok a st1 -> bind m f st = f a st1.
Proof. intros H. unfold bind. rewrite H. reflexivity. Qed.

Lemma state_eta st : mkState (keyPath st) (compact st) (printDepth st) = st.
Proof. destruct st; reflexivity. Qed.

(** ** Stack discipline: what a computation leaves of the state *)


Lemma restores_ret {A} (a : A) : restores (ret a).
Proof. intros st a' st' H. inversion H. reflexivity. Qed.

Lemma restores_bind {A B} (m : M A) (f : A -> M B) :
  restores m -> (forall a, restores (f a)) -> restores (bind m f).
Proof.
  intros Hm Hf st b st2 H.
  apply bind_Ok_inv in H. destruct H as (a & st1 & H1 & H2).
  apply Hm in H1. subst st1. eapply Hf. exact H2.
Qed.

Lemma restores_getCompact : restores getCompact.
Proof. intros st a st' H. inversion H. reflexivity. Qed.

Lemma restores_getKeyPath : restores getKeyPath.
Proof. intros st a st' H. inversion H. reflexivity. Qed.

Lemma restores_indent input : restores (indent input).
Proof. intros st a st' H. inversion H. reflexivity. Qed.

Lemma restores_eol input : restores (eol input).
Proof. intros st a st' H. inversion H. reflexivity. Qed.

Lemma restores_comma i length : restores (comma i length).
Proof. intros st a st' H. inversion H. reflexivity. Qed.

Create HintDb restores.
#[local] Hint Resolve restores_ret restores_getCompact restores_getKeyPath
  restores_indent restores_eol restores_comma : restores.

(** [keyPath.push(k)] ... [keyPath.pop()] around a computation. *)
Lemma restores_keyed {A B} (k : pathKey) (m : M A) (rest : A -> list pathKey -> M B) :
  restores m ->
  (forall x path, restores (rest x path)) ->
  restores (push k ;; x <- m ;; path <- getKeyPath ;; pop ;; rest x path).
Proof.
  intros Hm Hrest st b st' H.
  unfold bind at 1 in H. simpl in H.
  apply bind_Ok_inv in H. destruct H as (x & st1 & H1 & H2).
  apply Hm in H1. subst st1.
  unfold bind at 1 2 in H2. simpl in H2.
  rewrite removelast_last in H2. rewrite state_eta in H2.
  eapply Hrest. exact H2.
Qed.

(** [printDepth += 1] ... [printDepth -= 1] around a computation. *)
Lemma restores_indentBlock {A} (m : M A) : restores m -> restores (indentBlock m).
Proof.
  intros Hm st a st' H. unfold indentBlock in H.
  unfold bind at 1 in H. simpl in H.
  apply bind_Ok_inv in H. destruct H as (x & st1 & H1 & H2).
  apply Hm in H1. subst st1.
  unfold bind in H2. simpl in H2. inversion H2; subst.
  replace (printDepth st + 1 - 1) with (printDepth st) by lia.
  apply state_eta.
Qed.

Lemma restores_mapM {A B} (f : A -> nat -> M B) (l : list A) :
  (forall x i, In x l -> restores (f x i)) ->
  forall i, restores (mapM f i l).
Proof.
  induction l as [| x rest IH]; intros Hf i; simpl.
  - apply restores_ret.
  - apply restores_bind; [apply Hf; left; reflexivity | ].
    intros y. apply restores_bind.
    + apply IH. intros x' i' Hin. apply Hf. right. exact Hin.
    + intros ys. apply restores_ret.
Qed.

Section ClosuresRestore.
Variable map_ : string -> list pathKey -> string.
Variable recur : value -> M string.
Hypothesis recur_restores : forall v, restores (recur v).

Lemma restores_printItem toStr length v i :
  restores (toStr v) -> restores (printItem map_ toStr length v i).
Proof.
  intros H. unfold printItem.
  apply (restores_keyed (KIdx i) (toStr v)
           (fun str path => ind <- indent (map_ str path) ;; sep <- comma i length ;; ret (ind ++ sep))).
  - exact H.
  - intros x path. apply restores_bind; auto with restores.
    intros ind. apply restores_bind; auto with restores.
Qed.

Lemma restores_printArray array toStr :
  (forall v, In v array -> restores (toStr v)) ->
  restores (printArray map_ array toStr).
Proof.
  intros H. unfold printArray. destruct array as [| v0 rest]; [apply restores_ret | ].
  apply restores_bind; auto with restores. intros open.
  apply restores_bind.
  - apply restores_indentBlock. apply restores_bind.
    + apply restores_mapM. intros x i Hin. apply restores_printItem. apply H. exact Hin.
    + intros items. apply restores_ret.
  - intros body. apply restores_bind; auto with restores.
Qed.

Lemma restores_printField obj length key i :
  restores (printField map_ recur obj length key i).
Proof.
  unfold printField.
  apply (restores_keyed (KStr key) (recur (getProp obj key))
           (fun str path =>
              c <- getCompact ;;
              ind <- indent (key ++ ":" ++ (if c then "" else " ") ++ map_ str path) ;;
              sep <- comma i length ;; ret (ind ++ sep))).
  - apply recur_restores.
  - intros x path. apply restores_bind; auto with restores.
    intros c. apply restores_bind; auto with restores.
    intros ind. apply restores_bind; auto with restores.
Qed.

Lemma restores_printObject obj : restores (printObject map_ recur obj).
Proof.
  unfold printObject. destruct (Object_keys obj) as [keys | ].
  - destruct keys as [| k0 rest]; [apply restores_ret | ].
    apply restores_bind; auto with restores. intros open.
    apply restores_bind.
    + apply restores_indentBlock. apply restores_bind.
      * apply restores_mapM. intros x i _. apply restores_printField.
      * intros items. apply restores_ret.
    + intros body. apply restores_bind; auto with restores.
  - intros st a st' H. discriminate H.
Qed.

Lemma restores_printPayload fn key arg :
  restores (printPayload map_ recur fn key arg).
Proof.
  unfold printPayload. destruct (fnIs fn "Let" && String.eqb key "let").
  - destruct arg; try apply restores_printObject.
    apply restores_printArray. intros v _. apply restores_printObject.
  - apply recur_restores.
Qed.

Lemma restores_printArg expr fn length key i :
  restores (printArg map_ recur expr fn length key i).
Proof.
  unfold printArg.
  apply (restores_keyed (KStr key) _
           (fun str path => ind <- indent (map_ str path) ;; sep <- comma i length ;; ret (ind ++ sep))).
  - apply restores_printPayload.
  - intros x path. apply restores_bind; auto with restores.
    intros ind. apply restores_bind; auto with restores.
Qed.

(** [var wasCompact = compact] ... [compact = wasCompact] around the array
    branch. *)
Lemma restores_printSequence items : restores (printSequence map_ recur items).
Proof.
  intros st out st' H. unfold printSequence in H.
  unfold bind at 1 in H. simpl in H.
  assert (Hbody : forall st0, keyPath st0 = keyPath st -> printDepth st0 = printDepth st ->
            (out' <- printArray map_ items recur ;; setCompact (compact st) ;; ret out') st0
            = Ok out st' -> st' = st).
  { intros st0 Hk Hd H0.
    apply bind_Ok_inv in H0. destruct H0 as (x & st1 & H1 & H2).
    apply restores_printArray in H1; [ | intros; apply recur_restores ]. subst st1.
    unfold bind in H2. simpl in H2. inversion H2; subst.
    rewrite Hk, Hd. apply state_eta. }
  destruct (compact st) eqn:Ec; simpl in H;
    unfold bind at 1 in H; simpl in H; eapply Hbody; try exact H; reflexivity.
Qed.

Lemma restores_printCall optCompact expr : restores (printCall map_ recur optCompact expr).
Proof.
  intros st out st' H. unfold printCall in H.
  destruct (map fst (ownProps expr)) as [| key0 keys'] eqn:Ekeys; [discriminate H | ].
  unfold bind at 1 in H. simpl in H.
  set (fn := resolve key0) in *.
  assert (Hbody : forall st0, keyPath st0 = keyPath st -> printDepth st0 = printDepth st ->
            (args <- indentBlock (mapM (printArg map_ recur expr fn (List.length (key0 :: keys'))) 0
                                    (key0 :: keys')) ;;
             open <- eol (String_fn fn ++ "(") ;;
             close <- indent ")" ;;
             setCompact (compact st) ;;
             ret (open ++ join (if shouldReverseArgs fn then rev args else args) ++ close)) st0
            = Ok out st' -> st' = st).
  { intros st0 Hk Hd H0.
    apply bind_Ok_inv in H0. destruct H0 as (args & st1 & H1 & H2).
    apply restores_indentBlock in H1;
      [ | apply restores_mapM; intros; apply restores_printArg ]. subst st1.
    apply bind_Ok_inv in H2. destruct H2 as (open & st1 & H1 & H2).
    apply restores_eol in H1. subst st1.
    apply bind_Ok_inv in H2. destruct H2 as (close & st1 & H1 & H2).
    apply restores_indent in H1. subst st1.
    unfold bind in H2. simpl in H2. inversion H2; subst.
    rewrite Hk, Hd. apply state_eta. }
  destruct (compact st) eqn:Ec; simpl in H;
    unfold bind at 1 in H; simpl in H; eapply Hbody; try exact H; reflexivity.
Qed.
End ClosuresRestore.

Lemma restores_printBody self expr options :
  (forall v o, restores (self v o)) -> restores (printBody self expr options).
Proof.
  intros Hself.
  assert (Hobj : restores
            (if hasProp "object" expr
             then printObject (mapOf (normalize options))
                    (fun item => self item (OptObj (normalize options)))
                    (getProp expr "object")
             else printCall (mapOf (normalize options))
                    (fun item => self item (OptObj (normalize options)))
                    (opt_compact (normalize options)) expr)).
  { destruct (hasProp "object" expr).
    - apply restores_printObject. intros v. apply Hself.
    - apply restores_printCall. intros v. apply Hself. }
  destruct expr; simpl; try apply restores_ret; try exact Hobj.
  apply restores_printSequence. intros v. apply Hself.
Qed.

Lemma restores_exprToString fuel :
  forall expr options, restores (exprToString fuel expr options).
Proof.
  induction fuel as [| fuel IH]; intros expr options.
  - intros st a st' H. discriminate H.
  - destruct expr; cbn [exprToString];
      try apply restores_ret; apply restores_printBody; exact IH.
Qed.

(** ** Own properties, heights and well-formedness *)

Lemma assoc_In k l x : assoc k l = Some x -> In (k, x) l.
Proof.
  induction l as [| [k' v] rest IH]; simpl; [discriminate | ].
  destruct (String.eqb k k') eqn:E.
  - intros H. inversion H; subst. apply String.eqb_eq in E. subst. left. reflexivity.
  - intros H. right. apply IH. exact H.
Qed.

Lemma assoc_key k l : In k (map fst l) -> exists x, assoc k l = Some x.
Proof.
  induction l as [| [k' v] rest IH]; simpl; [intros [] | ].
  intros H. destruct (String.eqb k k') eqn:E; [eexists; reflexivity | ].
  destruct H as [H | H]; [ | apply IH; exact H ].
  subst. rewrite String.eqb_refl in E. discriminate E.
Qed.

Lemma getProp_In v key :
  In key (map fst (ownProps v)) -> In (key, getProp v key) (ownProps v).
Proof.
  intros H. unfold getProp. destruct (assoc_key _ _ H) as [x Hx].
  rewrite Hx. apply assoc_In. exact Hx.
Qed.

Lemma indexed_In k x l : forall i, In (k, x) (indexed i l) -> In x l.
Proof.
  induction l as [| v rest IH]; intros i; simpl; [intros [] | ].
  intros [H | H]; [inversion H; left; reflexivity | right; eapply IH; exact H].
Qed.

Lemma chars_In x s : In x (chars s) -> exists c, x = VStr (String c "").
Proof.
  induction s as [| c rest IH]; simpl; [intros [] | ].
  intros [H | H]; [exists c; symmetry; exact H | apply IH; exact H].
Qed.

Lemma height_pos v : 1 <= height v.
Proof. destruct v; simpl; lia. Qed.

Lemma height_item x items :
  In x items -> height x <= fold_right (fun y n => Nat.max (height y) n) 0 items.
Proof.
  induction items as [| y rest IH]; simpl; [intros [] | ].
  intros [H | H]; [subst; lia | apply IH in H; lia].
Qed.

Lemma height_prop (k : string) x (props : list (string * value)) :
  In (k, x) props ->
  height x <= fold_right (fun kv n => Nat.max (height (snd kv)) n) 0 props.
Proof.
  induction props as [| kv rest IH]; simpl; [intros [] | ].
  intros [H | H]; [subst; simpl; lia | apply IH in H; lia].
Qed.

(** A property of a value is nested no deeper than the value, and strictly
    less deep unless the value is a string (whose properties are its
    characters). *)
Lemma height_ownProps v k x :
  In (k, x) (ownProps v) ->
  height x <= height v /\ (match v with VStr _ => True | _ => height x < height v end).
Proof.
  destruct v; simpl; try contradiction.
  - intros H. apply indexed_In in H. apply chars_In in H. destruct H as [c ->]. simpl. lia.
  - intros H. apply indexed_In in H. apply height_item in H. lia.
  - intros H. apply height_prop in H. lia.
  - intros [H | []]. inversion H; subst. lia.
  - intros [H | []]. inversion H; subst. lia.
Qed.

Lemma wfRecord_props obj k x :
  wfRecord obj = true -> In (k, x) (ownProps obj) -> wfExpr x = true.
Proof.
  destruct obj; simpl; try discriminate; try (intros _; contradiction).
  - intros _ H. apply indexed_In in H. apply chars_In in H. destruct H as [c ->]. reflexivity.
  - intros Hwf H. apply indexed_In in H.
    rewrite forallb_forall in Hwf. apply Hwf. exact H.
  - intros Hwf H. rewrite forallb_forall in Hwf. apply (Hwf (k, x)). exact H.
  - intros Hwf [H | []]. inversion H; subst. exact Hwf.
  - intros Hwf [H | []]. inversion H; subst. exact Hwf.
Qed.

Lemma wfRecord_not_nullish obj : wfRecord obj = true -> isNullish obj = false.
Proof. destruct obj; simpl; congruence. Qed.

(** ** Completion: what makes a computation return *)


Lemma succeeds_ret {A} (a : A) : succeeds (ret a).
Proof. intros st. exists a, st. reflexivity. Qed.

Lemma succeeds_bind {A B} (m : M A) (f : A -> M B) :
  succeeds m -> (forall a, succeeds (f a)) -> succeeds (bind m f).
Proof.
  intros Hm Hf st. destruct (Hm st) as (a & st1 & H1).
  destruct (Hf a st1) as (b & st2 & H2).
  exists b, st2. rewrite (bind_Ok _ _ _ _ _ H1). exact H2.
Qed.

Lemma succeeds_getCompact : succeeds getCompact.
Proof. intros st. eexists _, _. reflexivity. Qed.
Lemma succeeds_setCompact c : succeeds (setCompact c).
Proof. intros st. eexists _, _. reflexivity. Qed.
Lemma succeeds_getKeyPath : succeeds getKeyPath.
Proof. intros st. eexists _, _. reflexivity. Qed.
Lemma succeeds_push k : succeeds (push k).
Proof. intros st. eexists _, _. reflexivity. Qed.
Lemma succeeds_pop : succeeds pop.
Proof. intros st. eexists _, _. reflexivity. Qed.
Lemma succeeds_enter : succeeds enter.
Proof. intros st. eexists _, _. reflexivity. Qed.
Lemma succeeds_leave : succeeds leave.
Proof. intros st. eexists _, _. reflexivity. Qed.

Lemma succeeds_indent input : succeeds (indent input).
Proof. intros st. eexists _, _. reflexivity. Qed.

Lemma succeeds_eol input : succeeds (eol input).
Proof. intros st. eexists _, _. reflexivity. Qed.

Lemma succeeds_comma i length : succeeds (comma i length).
Proof. intros st. eexists _, _. reflexivity. Qed.

Create HintDb succeeds.
#[local] Hint Resolve succeeds_ret succeeds_getCompact succeeds_setCompact
  succeeds_getKeyPath succeeds_push succeeds_pop succeeds_enter succeeds_leave
  succeeds_indent succeeds_eol succeeds_comma : succeeds.

Ltac run_succeeds :=
  repeat (first [ apply succeeds_bind; [ solve [auto with succeeds] | intros ? ]
                | solve [auto with succeeds] ]).

Lemma succeeds_indentBlock {A} (m : M A) : succeeds m -> succeeds (indentBlock m).
Proof.
  intros H. unfold indentBlock. run_succeeds.
Qed.

Lemma succeeds_mapM {A B} (f : A -> nat -> M B) (l : list A) :
  (forall x i, In x l -> succeeds (f x i)) ->
  forall i, succeeds (mapM f i l).
Proof.
  induction l as [| x rest IH]; intros Hf i; simpl.
  - apply succeeds_ret.
  - apply succeeds_bind; [apply Hf; left; reflexivity | intros y].
    apply succeeds_bind; [ | intros ys; apply succeeds_ret].
    apply IH. intros x' i' Hin. apply Hf. right. exact Hin.
Qed.

Section ClosuresSucceed.
Variable map_ : string -> list pathKey -> string.
Variable recur : value -> M string.

Lemma succeeds_printItem toStr length v i :
  succeeds (toStr v) -> succeeds (printItem map_ toStr length v i).
Proof.
  intros H. unfold printItem. run_succeeds.
Qed.

Lemma succeeds_printArray array toStr :
  (forall v, In v array -> succeeds (toStr v)) ->
  succeeds (printArray map_ array toStr).
Proof.
  intros H. unfold printArray. destruct array as [| v0 rest]; [apply succeeds_ret | ].
  run_succeeds. apply succeeds_bind; [ | intros ?; run_succeeds ].
  apply succeeds_indentBlock. apply succeeds_bind; [ | intros ?; run_succeeds ].
  apply succeeds_mapM. intros x i Hin. apply succeeds_printItem. apply H. exact Hin.
Qed.

Lemma succeeds_printField obj length key i :
  succeeds (recur (getProp obj key)) -> succeeds (printField map_ recur obj length key i).
Proof.
  intros H. unfold printField. run_succeeds.
Qed.

Lemma succeeds_printObject obj :
  isNullish obj = false ->
  (forall key, In key (map fst (ownProps obj)) -> succeeds (recur (getProp obj key))) ->
  succeeds (printObject map_ recur obj).
Proof.
  intros Hnn H. unfold printObject, Object_keys. rewrite Hnn.
  destruct (map fst (ownProps obj)) as [| k0 rest] eqn:E; [apply succeeds_ret | ].
  run_succeeds. apply succeeds_bind; [ | intros ?; run_succeeds ].
  apply succeeds_indentBlock. apply succeeds_bind; [ | intros ?; run_succeeds ].
  apply succeeds_mapM. intros x i Hin. apply succeeds_printField. apply H. exact Hin.
Qed.

Lemma succeeds_printSequence items :
  (forall v, In v items -> succeeds (recur v)) ->
  succeeds (printSequence map_ recur items).
Proof.
  intros H. unfold printSequence. run_succeeds.
  apply succeeds_bind; [destruct (negb a); auto with succeeds | intros ?].
  apply succeeds_bind; [apply succeeds_printArray; exact H | intros ?]. run_succeeds.
Qed.

Lemma succeeds_printCall optCompact expr key0 keys' :
  map fst (ownProps expr) = key0 :: keys' ->
  (forall key i, In key (key0 :: keys') ->
     succeeds (printArg map_ recur expr (resolve key0) (List.length (key0 :: keys')) key i)) ->
  succeeds (printCall map_ recur optCompact expr).
Proof.
  intros Ekeys H. unfold printCall. rewrite Ekeys. run_succeeds.
  apply succeeds_bind; [destruct (negb a); auto with succeeds | intros ?].
  apply succeeds_bind; [ | intros ?; run_succeeds ].
  apply succeeds_indentBlock. apply succeeds_mapM. intros x i Hin. apply H. exact Hin.
Qed.
End ClosuresSucceed.

Section BodySucceeds.
Variable map_ : string -> list pathKey -> string.
Variable recur : value -> M string.
Variable n : nat.
Hypothesis self_succeeds :
  forall v, wfExpr v = true -> height v <= n -> succeeds (recur v).

Lemma succeeds_record obj :
  wfRecord obj = true -> height obj <= n -> succeeds (printObject map_ recur obj).
Proof.
  intros Hwf Hh. apply succeeds_printObject.
  - apply wfRecord_not_nullish. exact Hwf.
  - intros key Hin. apply getProp_In in Hin. apply self_succeeds.
    + eapply wfRecord_props; eassumption.
    + apply height_ownProps in Hin. lia.
Qed.

Lemma succeeds_binding arg :
  match arg with VArr items => forallb wfRecord items | _ => wfRecord arg end = true ->
  height arg <= n ->
  succeeds (match arg with
            | VArr items => printArray map_ items (printObject map_ recur)
            | _ => printObject map_ recur arg
            end).
Proof.
  intros Hwf Hh. destruct arg; try (apply succeeds_record; assumption).
  apply succeeds_printArray. intros v Hin. apply succeeds_record.
  - rewrite forallb_forall in Hwf. apply Hwf. exact Hin.
  - apply height_item in Hin. simpl in Hh. lia.
Qed.

Lemma succeeds_printArg expr fn length key i :
  (if fnIs fn "Let" && String.eqb key "let"
   then match getProp expr key with
        | VArr items => forallb wfRecord items
        | _ => wfRecord (getProp expr key)
        end
   else wfExpr (getProp expr key)) = true ->
  height (getProp expr key) <= n ->
  succeeds (printArg map_ recur expr fn length key i).
Proof.
  intros Hwf Hh. unfold printArg, printPayload. run_succeeds.
  apply succeeds_bind; [ | intros ?; run_succeeds ].
  destruct (fnIs fn "Let" && String.eqb key "let").
  - apply succeeds_binding; assumption.
  - apply self_succeeds; assumption.
Qed.

Lemma succeeds_object optCompact props :
  wfProps wfExpr wfRecord props = true ->
  height (VObj props) <= S n ->
  succeeds (if hasProp "object" (VObj props)
            then printObject map_ recur (getProp (VObj props) "object")
            else printCall map_ recur optCompact (VObj props)).
Proof.
  intros Hwf Hh. unfold wfProps in Hwf. unfold hasProp. simpl ownProps.
  destruct (existsb (String.eqb "object") (map fst props)) eqn:Eobj.
  - assert (Hin : In ("object", getProp (VObj props) "object") props).
    { apply (getProp_In (VObj props)). simpl.
      apply existsb_exists in Eobj. destruct Eobj as (k & Hk & Ek).
      apply String.eqb_eq in Ek. subst k. exact Hk. }
    rewrite forallb_forall in Hwf. pose proof (Hwf _ Hin) as Hr. simpl in Hr.
    apply succeeds_record; [exact Hr | ].
    apply (height_ownProps (VObj props)) in Hin. lia.
  - destruct props as [| [key0 x0] rest] eqn:Eprops; [discriminate Hwf | ].
    rewrite <- Eprops in *.
    apply (succeeds_printCall _ _ _ _ key0 (map fst rest)).
    + rewrite Eprops. reflexivity.
    + intros key i Hin.
      assert (Hp : In (key, getProp (VObj props) key) props).
      { apply (getProp_In (VObj props)). simpl. rewrite Eprops. exact Hin. }
      rewrite forallb_forall in Hwf. pose proof (Hwf _ Hp) as Hk. simpl in Hk.
      apply succeeds_printArg; [exact Hk | ].
      apply (height_ownProps (VObj props)) in Hp. lia.
Qed.

(** A wrapper that is itself the unwrapped value is printed as a call on
    its one own property. *)
Lemma succeeds_wrapper optCompact expr key x :
  ownProps expr = [(key, x)] ->
  String.eqb "object" key = false ->
  fnIs (resolve key) "Let" = false ->
  wfExpr x = true -> height x <= n ->
  succeeds (if hasProp "object" expr
            then printObject map_ recur (getProp expr "object")
            else printCall map_ recur optCompact expr).
Proof.
  intros Eprops Ekey Efn Hwf Hh. unfold hasProp. rewrite Eprops.
  cbn [map fst existsb]. rewrite Ekey. cbn [orb].
  apply (succeeds_printCall _ _ _ _ key []); [rewrite Eprops; reflexivity | ].
  intros k i [Hk | []]. subst k.
  assert (Hget : getProp expr key = x).
  { unfold getProp. rewrite Eprops. cbn [assoc]. rewrite String.eqb_refl. reflexivity. }
  apply succeeds_printArg; rewrite Hget; [ | exact Hh].
  rewrite Efn. exact Hwf.
Qed.
End BodySucceeds.

Lemma succeeds_printBody self n expr options :
  (forall v o, wfExpr v = true -> height v <= n -> succeeds (self v o)) ->
  wfBody expr = true -> height expr <= S n ->
  succeeds (printBody self expr options).
Proof.
  intros Hself Hwf Hh.
  assert (Hrecur : forall v, wfExpr v = true -> height v <= n ->
                             succeeds (self v (OptObj (normalize options)))).
  { intros v. apply Hself. }
  destruct expr as [ | | b | z | s | d | items | props | r | x shown ];
    simpl printBody; try apply succeeds_ret.
  - apply succeeds_printSequence. intros v Hin. apply Hrecur.
    + simpl in Hwf. rewrite forallb_forall in Hwf. apply Hwf. exact Hin.
    + apply height_item in Hin. simpl in Hh. lia.
  - apply (succeeds_object _ _ n Hrecur); assumption.
  - apply (succeeds_wrapper _ _ n Hrecur _ (VExpr r) "raw" r);
      try reflexivity; [exact Hwf | simpl in Hh; lia].
  - apply (succeeds_wrapper _ _ n Hrecur _ (VValue x shown) "value" x);
      try reflexivity; [exact Hwf | simpl in Hh; lia].
Qed.

Lemma wfExpr_wfBody v :
  wfExpr v = true -> match v with VExpr _ | VValue _ _ => True | _ => wfBody v = true end.
Proof. destruct v; simpl; auto. Qed.

Lemma succeeds_exprToString fuel :
  forall expr options,
    wfExpr expr = true -> height expr <= fuel ->
    succeeds (exprToString fuel expr options).
Proof.
  induction fuel as [| fuel IH]; intros expr options Hwf Hh.
  - pose proof (height_pos expr). lia.
  - assert (Hself : forall v o, wfExpr v = true -> height v <= fuel ->
                                succeeds (exprToString fuel v o)).
    { intros v o. apply IH. }
    pose proof (wfExpr_wfBody _ Hwf) as Hb.
    destruct expr; cbn [exprToString];
      try (apply (succeeds_printBody _ fuel); [exact Hself | exact Hb | exact Hh]).
    + apply (succeeds_printBody _ fuel); [exact Hself | exact Hwf | simpl in Hh; lia].
    + apply succeeds_ret.
Qed.

(** ** Running the printer on the texts of the children *)

Lemma result_Ok {A} (m : M A) st a :
  restores m -> result (m st) = Some a -> m st = Ok a st.
Proof.
  intros Hm H. destruct (m st) as [a' st' | | ] eqn:E; try discriminate H.
  inversion H; subst. apply Hm in E. subst. reflexivity.
Qed.

Lemma collect_length {A B} (run : A -> nat -> option B) l :
  forall i ys, collect run i l = Some ys -> List.length ys = List.length l.
Proof.
  induction l as [| x rest IH]; intros i ys; simpl.
  - intros H. inversion H. reflexivity.
  - destruct (run x i); [ | discriminate ].
    destruct (collect run (S i) rest) eqn:E; [ | discriminate ].
    intros H. inversion H; subst. simpl. f_equal. eapply IH. exact E.
Qed.

Lemma keyed_run {A B} (k : pathKey) (m : M A) (rest : A -> list pathKey -> M B) kp c d a :
  m (mkState (kp ++ [k]) c d) = Ok a (mkState (kp ++ [k]) c d) ->
  (push k ;; x <- m ;; path <- getKeyPath ;; pop ;; rest x path) (mkState kp c d)
  = rest a (kp ++ [k])%list (mkState kp c d).
Proof.
  intros H. unfold bind at 1. cbn [push keyPath compact printDepth].
  rewrite (bind_Ok _ _ _ _ _ H).
  unfold bind, getKeyPath, pop. cbn [keyPath compact printDepth].
  rewrite removelast_last. reflexivity.
Qed.

Lemma indentBlock_run {A} (m : M A) kp c d a :
  m (mkState kp c (d + 1)) = Ok a (mkState kp c (d + 1)) ->
  indentBlock m (mkState kp c d) = Ok a (mkState kp c d).
Proof.
  intros H. unfold indentBlock. unfold bind at 1. cbn [enter keyPath compact printDepth].
  rewrite (bind_Ok _ _ _ _ _ H).
  unfold bind, leave, ret. cbn [keyPath compact printDepth].
  replace (d + 1 - 1) with d by lia. reflexivity.
Qed.

Section ClosuresRun.
Variable map_ : string -> list pathKey -> string.
Variable recur : value -> M string.

Lemma printItem_run toStr length v i kp c d t :
  toStr v (mkState (kp ++ [KIdx i]) c d) = Ok t (mkState (kp ++ [KIdx i]) c d) ->
  printItem map_ toStr length v i (mkState kp c d)
  = Ok (indentText c d (map_ t (kp ++ [KIdx i])%list) ++ commaText c i length) (mkState kp c d).
Proof.
  intros H. unfold printItem.
  rewrite (keyed_run (KIdx i) (toStr v)
             (fun str path => ind <- indent (map_ str path) ;; sep <- comma i length ;;
                              ret (ind ++ sep)) kp c d t H).
  reflexivity.
Qed.

Lemma printArg_run expr fn length key i kp c d t :
  printPayload map_ recur fn key (getProp expr key) (mkState (kp ++ [KStr key]) c d)
  = Ok t (mkState (kp ++ [KStr key]) c d) ->
  printArg map_ recur expr fn length key i (mkState kp c d)
  = Ok (indentText c d (map_ t (kp ++ [KStr key])%list) ++ commaText c i length) (mkState kp c d).
Proof.
  intros H. unfold printArg.
  rewrite (keyed_run (KStr key) _
             (fun str path => ind <- indent (map_ str path) ;; sep <- comma i length ;;
                              ret (ind ++ sep)) kp c d t H).
  reflexivity.
Qed.

Lemma mapM_printItem_run toStr length kp c d :
  (forall v, restores (toStr v)) ->
  forall items i texts,
    collect (fun v i => result (toStr v (mkState (kp ++ [KIdx i]) c d))) i items = Some texts ->
    mapM (printItem map_ toStr length) i items (mkState kp c d)
    = Ok (entries map_ kp c d length i (combine (map KIdx (seq i (List.length items))) texts))
         (mkState kp c d).
Proof.
  intros HtoStr. induction items as [| v rest IH]; intros i texts; simpl.
  - intros H. inversion H. reflexivity.
  - destruct (result (toStr v (mkState (kp ++ [KIdx i]) c d))) as [t | ] eqn:Et; [ | discriminate ].
    destruct (collect _ (S i) rest) as [ts | ] eqn:Ets; [ | discriminate ].
    intros H. inversion H; subst. clear H.
    apply result_Ok in Et; [ | apply HtoStr ].
    rewrite (bind_Ok _ _ _ _ _ (printItem_run _ _ _ _ _ _ _ _ Et)).
    rewrite (bind_Ok _ _ _ _ _ (IH _ _ Ets)). reflexivity.
Qed.

Hypothesis recur_restores : forall v, restores (recur v).

Lemma mapM_printArg_run expr fn length kp c d :
  forall keys i texts,
    collect (fun key (_ : nat) =>
               result (printPayload map_ recur fn key (getProp expr key)
                         (mkState (kp ++ [KStr key]) c d))) i keys = Some texts ->
    mapM (printArg map_ recur expr fn length) i keys (mkState kp c d)
    = Ok (entries map_ kp c d length i (combine (map KStr keys) texts)) (mkState kp c d).
Proof.
  induction keys as [| key rest IH]; intros i texts; simpl.
  - intros H. inversion H. reflexivity.
  - destruct (result (printPayload map_ recur fn key (getProp expr key) _)) as [t | ] eqn:Et;
      [ | discriminate ].
    destruct (collect _ (S i) rest) as [ts | ] eqn:Ets; [ | discriminate ].
    intros H. inversion H; subst. clear H.
    apply result_Ok in Et; [ | apply restores_printPayload; exact recur_restores ].
    rewrite (bind_Ok _ _ _ _ _ (printArg_run _ _ _ _ _ _ _ _ _ Et)).
    rewrite (bind_Ok _ _ _ _ _ (IH _ _ Ets)). reflexivity.
Qed.

Lemma printArray_run array toStr kp c d texts :
  (forall v, restores (toStr v)) ->
  array <> [] ->
  collect (fun v i => result (toStr v (mkState (kp ++ [KIdx i]) c (d + 1)))) 0 array
  = Some texts ->
  printArray map_ array toStr (mkState kp c d)
  = Ok (sequenceText map_ kp c d texts) (mkState kp c d).
Proof.
  intros HtoStr Hne H. unfold printArray.
  destruct array as [| v0 rest]; [congruence | ].
  pose proof (collect_length _ _ _ _ H) as Hlen.
  apply (mapM_printItem_run toStr (List.length (v0 :: rest)) kp c (d + 1) HtoStr) in H.
  assert (Hblock :
    indentBlock (items <- mapM (printItem map_ toStr (List.length (v0 :: rest))) 0 (v0 :: rest) ;;
                 ret (join items)) (mkState kp c d)
    = Ok (join (entries map_ kp c (d + 1) (List.length (v0 :: rest)) 0
                  (combine (map KIdx (seq 0 (List.length (v0 :: rest)))) texts)))
         (mkState kp c d)).
  { apply indentBlock_run. rewrite (bind_Ok _ _ _ _ _ H). reflexivity. }
  unfold bind at 1. cbn [eol compact].
  rewrite (bind_Ok _ _ _ _ _ Hblock).
  unfold sequenceText. rewrite Hlen. reflexivity.
Qed.

Lemma printSequence_run items st texts :
  items <> [] ->
  let c := compact st || forallb isCompact items in
  collect (fun v i => result (recur v (childState st c (KIdx i)))) 0 items = Some texts ->
  printSequence map_ recur items st
  = Ok (sequenceText map_ (keyPath st) c (printDepth st) texts) st.
Proof.
  intros Hne c H. unfold printSequence.
  destruct st as [kp cf d]. unfold childState in H. cbn [keyPath compact printDepth] in *.
  pose proof (printArray_run items recur kp c d texts recur_restores Hne H) as Hrun.
  unfold bind at 1. cbn [getCompact compact].
  destruct cf; cbn [negb orb] in *.
  - unfold bind at 1. cbn [ret]. unfold bind at 1. subst c. rewrite Hrun. reflexivity.
  - unfold bind at 1. cbn [setCompact keyPath compact printDepth].
    unfold bind at 1. subst c. rewrite Hrun. reflexivity.
Qed.

Lemma printField_run obj length key i kp c d t :
  recur (getProp obj key) (mkState (kp ++ [KStr key]) c d)
  = Ok t (mkState (kp ++ [KStr key]) c d) ->
  printField map_ recur obj length key i (mkState kp c d)
  = Ok (indentText c d (key ++ ":" ++ (if c then "" else " ") ++ map_ t (kp ++ [KStr key])%list)
        ++ commaText c i length) (mkState kp c d).
Proof.
  intros H. unfold printField.
  rewrite (keyed_run (KStr key) _
             (fun str path =>
                c <- getCompact ;;
                ind <- indent (key ++ ":" ++ (if c then "" else " ") ++ map_ str path) ;;
                sep <- comma i length ;; ret (ind ++ sep)) kp c d t H).
  reflexivity.
Qed.

Lemma mapM_printField_run obj length kp c d :
  forall keys i texts,
    collect (fun key (_ : nat) =>
               result (recur (getProp obj key) (mkState (kp ++ [KStr key]) c d))) i keys
    = Some texts ->
    mapM (printField map_ recur obj length) i keys (mkState kp c d)
    = Ok (fields map_ kp c d length i (combine keys texts)) (mkState kp c d).
Proof.
  induction keys as [| key rest IH]; intros i texts; simpl.
  - intros H. inversion H. reflexivity.
  - destruct (result (recur (getProp obj key) _)) as [t | ] eqn:Et; [ | discriminate ].
    destruct (collect _ (S i) rest) as [ts | ] eqn:Ets; [ | discriminate ].
    intros H. inversion H; subst. clear H.
    apply result_Ok in Et; [ | apply recur_restores ].
    rewrite (bind_Ok _ _ _ _ _ (printField_run _ _ _ _ _ _ _ _ Et)).
    rewrite (bind_Ok _ _ _ _ _ (IH _ _ Ets)). reflexivity.
Qed.

Lemma printObject_run obj key0 keys' kp c d texts :
  isNullish obj = false ->
  map fst (ownProps obj) = key0 :: keys' ->
  collect (fun key (_ : nat) =>
             result (recur (getProp obj key) (mkState (kp ++ [KStr key]) c (d + 1))))
    0 (key0 :: keys') = Some texts ->
  printObject map_ recur obj (mkState kp c d)
  = Ok (objectText map_ kp c d (key0 :: keys') texts) (mkState kp c d).
Proof.
  intros Hnn Hkeys H. unfold printObject, Object_keys. rewrite Hnn, Hkeys.
  apply (mapM_printField_run obj (List.length (key0 :: keys')) kp c (d + 1)) in H.
  assert (Hblock :
    indentBlock (items <- mapM (printField map_ recur obj (List.length (key0 :: keys'))) 0
                             (key0 :: keys') ;;
                 ret (join items)) (mkState kp c d)
    = Ok (join (fields map_ kp c (d + 1) (List.length (key0 :: keys')) 0
                  (combine (key0 :: keys') texts))) (mkState kp c d)).
  { apply indentBlock_run. rewrite (bind_Ok _ _ _ _ _ H). reflexivity. }
  unfold bind at 1. cbn [eol compact].
  rewrite (bind_Ok _ _ _ _ _ Hblock). reflexivity.
Qed.

Lemma printCall_run optCompact expr key0 keys' st texts :
  map fst (ownProps expr) = key0 :: keys' ->
  let keys := key0 :: keys' in
  let fn := resolve key0 in
  let c := compact st
           || (optCompact || forallb (fun key => isCompact (getProp expr key)) keys) in
  collect (fun key (_ : nat) =>
             result (printPayload map_ recur fn key (getProp expr key)
                       (childState st c (KStr key)))) 0 keys = Some texts ->
  printCall map_ recur optCompact expr st
  = Ok (callText map_ (keyPath st) c (printDepth st) fn keys texts) st.
Proof.
  intros Ekeys keys fn c H. unfold printCall. rewrite Ekeys.
  destruct st as [kp cf d]. unfold childState in H. cbn [keyPath compact printDepth] in *.
  apply (mapM_printArg_run expr fn (List.length keys) kp c (d + 1)) in H.
  fold keys. fold fn.
  assert (Hbody :
    (args <- indentBlock (mapM (printArg map_ recur expr fn (List.length keys)) 0 keys) ;;
     open <- eol (String_fn fn ++ "(") ;;
     close <- indent ")" ;;
     setCompact cf ;;
     ret (open ++ join (if shouldReverseArgs fn then rev args else args) ++ close))
      (mkState kp c d)
    = Ok (callText map_ kp c d fn keys texts) (mkState kp cf d)).
  { apply indentBlock_run in H. rewrite (bind_Ok _ _ _ _ _ H). reflexivity. }
  unfold bind at 1. cbn [getCompact compact].
  destruct cf; cbn [negb orb] in *.
  - unfold bind at 1. cbn [ret]. subst c. exact Hbody.
  - unfold bind at 1. cbn [setCompact keyPath compact printDepth]. subst c. exact Hbody.
Qed.
End ClosuresRun.

(** ** More fuel changes nothing *)

Lemma extends_refl {A} (m : M A) : extends m m.
Proof. intros st _. reflexivity. Qed.

Lemma extends_bind {A B} (m m' : M A) (f f' : A -> M B) :
  extends m m' -> (forall a, extends (f a) (f' a)) -> extends (bind m f) (bind m' f').
Proof.
  intros Hm Hf st H. unfold bind in *.
  destruct (m st) as [a st1 | st1 | ] eqn:E.
  - rewrite (Hm st) by (rewrite E; discriminate). rewrite E. apply Hf. exact H.
  - rewrite (Hm st) by (rewrite E; discriminate). rewrite E. reflexivity.
  - congruence.
Qed.

Lemma extends_mapM {A B} (f f' : A -> nat -> M B) (l : list A) :
  (forall x i, extends (f x i) (f' x i)) ->
  forall i, extends (mapM f i l) (mapM f' i l).
Proof.
  intros Hf. induction l as [| x rest IH]; intros i; simpl.
  - apply extends_refl.
  - apply extends_bind; [apply Hf | intros y].
    apply extends_bind; [apply IH | intros ys; apply extends_refl].
Qed.

Lemma extends_indentBlock {A} (m m' : M A) :
  extends m m' -> extends (indentBlock m) (indentBlock m').
Proof.
  intros H. unfold indentBlock.
  apply extends_bind; [apply extends_refl | intros _].
  apply extends_bind; [exact H | intros x; apply extends_refl].
Qed.

Section ClosuresExtend.
Variable map_ : string -> list pathKey -> string.
Variables recur recur' : value -> M string.
Hypothesis recur_extends : forall v, extends (recur v) (recur' v).

Lemma extends_printItem toStr toStr' length v i :
  extends (toStr v) (toStr' v) ->
  extends (printItem map_ toStr length v i) (printItem map_ toStr' length v i).
Proof.
  intros H. unfold printItem.
  apply extends_bind; [apply extends_refl | intros _].
  apply extends_bind; [exact H | intros str]. apply extends_refl.
Qed.

Lemma extends_printArray array toStr toStr' :
  (forall v, extends (toStr v) (toStr' v)) ->
  extends (printArray map_ array toStr) (printArray map_ array toStr').
Proof.
  intros H. unfold printArray. destruct array as [| v0 rest]; [apply extends_refl | ].
  apply extends_bind; [apply extends_refl | intros open].
  apply extends_bind; [ | intros body; apply extends_refl ].
  apply extends_indentBlock.
  apply extends_bind; [ | intros items; apply extends_refl ].
  apply extends_mapM. intros x i. apply extends_printItem. apply H.
Qed.

Lemma extends_printField obj length key i :
  extends (printField map_ recur obj length key i) (printField map_ recur' obj length key i).
Proof.
  unfold printField.
  apply extends_bind; [apply extends_refl | intros _].
  apply extends_bind; [apply recur_extends | intros str]. apply extends_refl.
Qed.

Lemma extends_printObject obj :
  extends (printObject map_ recur obj) (printObject map_ recur' obj).
Proof.
  unfold printObject. destruct (Object_keys obj) as [keys | ]; [ | apply extends_refl ].
  destruct keys as [| k0 rest]; [apply extends_refl | ].
  apply extends_bind; [apply extends_refl | intros open].
  apply extends_bind; [ | intros body; apply extends_refl ].
  apply extends_indentBlock.
  apply extends_bind; [ | intros items; apply extends_refl ].
  apply extends_mapM. intros x i. apply extends_printField.
Qed.

Lemma extends_printPayload fn key arg :
  extends (printPayload map_ recur fn key arg) (printPayload map_ recur' fn key arg).
Proof.
  unfold printPayload. destruct (fnIs fn "Let" && String.eqb key "let").
  - destruct arg; try apply extends_printObject.
    apply extends_printArray. intros v. apply extends_printObject.
  - apply recur_extends.
Qed.

Lemma extends_printArg expr fn length key i :
  extends (printArg map_ recur expr fn length key i)
          (printArg map_ recur' expr fn length key i).
Proof.
  unfold printArg.
  apply extends_bind; [apply extends_refl | intros _].
  apply extends_bind; [apply extends_printPayload | intros str]. apply extends_refl.
Qed.

Lemma extends_printSequence items :
  extends (printSequence map_ recur items) (printSequence map_ recur' items).
Proof.
  unfold printSequence.
  apply extends_bind; [apply extends_refl | intros wasCompact].
  apply extends_bind; [apply extends_refl | intros _].
  apply extends_bind; [ | intros out; apply extends_refl ].
  apply extends_printArray. exact recur_extends.
Qed.

Lemma extends_printCall optCompact expr :
  extends (printCall map_ recur optCompact expr) (printCall map_ recur' optCompact expr).
Proof.
  unfold printCall. destruct (map fst (ownProps expr)) as [| key0 keys']; [apply extends_refl | ].
  apply extends_bind; [apply extends_refl | intros wasCompact].
  apply extends_bind; [apply extends_refl | intros _].
  apply extends_bind; [ | intros args; apply extends_refl ].
  apply extends_indentBlock. apply extends_mapM. intros key i. apply extends_printArg.
Qed.
End ClosuresExtend.

Lemma extends_printBody self self' expr options :
  (forall v o, extends (self v o) (self' v o)) ->
  extends (printBody self expr options) (printBody self' expr options).
Proof.
  intros H.
  assert (Hobj : extends
            (if hasProp "object" expr
             then printObject (mapOf (normalize options))
                    (fun item => self item (OptObj (normalize options)))
                    (getProp expr "object")
             else printCall (mapOf (normalize options))
                    (fun item => self item (OptObj (normalize options)))
                    (opt_compact (normalize options)) expr)
            (if hasProp "object" expr
             then printObject (mapOf (normalize options))
                    (fun item => self' item (OptObj (normalize options)))
                    (getProp expr "object")
             else printCall (mapOf (normalize options))
                    (fun item => self' item (OptObj (normalize options)))
                    (opt_compact (normalize options)) expr)).
  { destruct (hasProp "object" expr).
    - apply extends_printObject. intros v. apply H.
    - apply extends_printCall. intros v. apply H. }
  destruct expr; simpl; try apply extends_refl; try exact Hobj.
  apply extends_printSequence. intros v. apply H.
Qed.

Lemma exprToString_fuel_step fuel :
  forall expr options,
    extends (exprToString fuel expr options) (exprToString (S fuel) expr options).
Proof.
  induction fuel as [| fuel IH]; intros expr options.
  - intros st H. exfalso. apply H. reflexivity.
  - assert (Hbody : forall e, extends (printBody (exprToString fuel) e options)
                                      (printBody (exprToString (S fuel)) e options)).
    { intros e. apply extends_printBody. exact IH. }
    destruct expr; try apply extends_refl;
      first [ exact (Hbody (VExpr expr)) | apply Hbody ].
Qed.

(** What a render returns or raises with some fuel, it returns or raises
    with any larger fuel. *)
Lemma exprToString_fuel_mono fuel fuel' expr options st :
  fuel <= fuel' ->
  exprToString fuel expr options st <> OutOfFuel ->
  exprToString fuel' expr options st = exprToString fuel expr options st.
Proof.
  intros Hle. induction Hle as [| fuel' Hle IH]; intros H; [reflexivity | ].
  rewrite <- (IH H). apply exprToString_fuel_step. rewrite (IH H). exact H.
Qed.

(** ** The branches of [exprToString] *)

Lemma exprToString_sequence fuel items options :
  exprToString (S fuel) (VArr items) options
  = printSequence (mapOf (normalize options))
      (fun item => exprToString fuel item (OptObj (normalize options))) items.
Proof. reflexivity. Qed.

Lemma exprToString_call fuel props options :
  hasProp "object" (VObj props) = false ->
  exprToString (S fuel) (VObj props) options
  = printCall (mapOf (normalize options))
      (fun item => exprToString fuel item (OptObj (normalize options)))
      (opt_compact (normalize options)) (VObj props).
Proof. intros H. cbn [exprToString printBody]. rewrite H. reflexivity. Qed.

Lemma exprToString_objectLiteral fuel props options :
  hasProp "object" (VObj props) = true ->
  exprToString (S fuel) (VObj props) options
  = printObject (mapOf (normalize options))
      (fun item => exprToString fuel item (OptObj (normalize options)))
      (getProp (VObj props) "object").
Proof. intros H. cbn [exprToString printBody]. rewrite H. reflexivity. Qed.

(** The recursive calls receive the options already put in normal form;
    that changes nothing. *)
Lemma exprToString_normalize fuel expr options :
  exprToString fuel expr (OptObj (normalize options)) = exprToString fuel expr options.
Proof.
  destruct fuel as [| fuel]; [reflexivity | ].
  destruct expr; reflexivity.
Qed.

(** ** [Expr] and [toJSON] *)

(** C10: for every object [obj], [(new Expr(obj)).toJSON()] is [obj] itself,
    unchanged. *)
Theorem toJSON_new_Expr (obj : value) : toJSON (new_Expr obj) = obj.
Proof. reflexivity. Qed.

(** ** Stack discipline of a whole render *)

(** C8: a render that completes leaves [keyPath], [compact] and [printDepth]
    as it found them, so that a second render of the same tree with the same
    options, run right after the first, returns the same text.  (The tree is
    a value of the embedding: the code assigns to no property of it.  The
    hook [map] is a pure function of its two arguments: it does not write
    to the array [keyPath] that it is handed.) *)
Theorem render_leaves_state_as_found fuel expr options st out st' :
  exprToString fuel expr options st = Ok out st' ->
  st' = st /\ exprToString fuel expr options st' = Ok out st'.
Proof.
  intros H. pose proof (restores_exprToString fuel expr options _ _ _ H) as E.
  subst st'. split; [reflexivity | exact H].
Qed.

Lemma render_leaves_state_as_found_witness :
  initial = initial /\
  exprToString 3 (VObj [("add", VArr [VNum 1; VNum 2])]) OptNone initial
  = Ok "Add([1,2])" initial.
Proof.
  apply (render_leaves_state_as_found 3 (VObj [("add", VArr [VNum 1; VNum 2])])
           OptNone initial "Add([1,2])" initial).
  reflexivity.
Defined.

(** A [TypeError] escapes with the state as it was at the throw: the key
    pushed, the depth raised. *)
Example throw_leaves_state_dirty :
  render 2 (VObj [("foo", VExpr (VObj []))]) OptNone
  = Throw (mkState [KStr "foo"] false 1).
Proof. reflexivity. Qed.

(** ** Completion *)

(** C2 (as stated, refuted): a record without own keys is printed as a call,
    and [keys[0].split] raises a [TypeError]. *)
Lemma empty_record_raises : render 1 (VObj []) OptNone = Throw initial.
Proof. reflexivity. Qed.

Lemma empty_record_raises_always fuel options st :
  exprToString (S fuel) (VObj []) options st = Throw st.
Proof. reflexivity. Qed.

Example null_literal_payload_raises :
  render 1 (VObj [("object", VNull)]) OptNone = Throw initial.
Proof. reflexivity. Qed.

(** C2 (amended): for every expression tree in which each record printed as
    a call has at least one own key and each payload handed to [printObject]
    (the value under [object]; under [let] in a [Let] call the value, or its
    elements when it is an array) is neither [null] nor [undefined],
    rendering returns a string and raises no error. *)
Theorem wellformed_tree_renders fuel expr options st :
  wfExpr expr = true ->
  height expr <= fuel ->
  exists out, exprToString fuel expr options st = Ok out st.
Proof.
  intros Hwf Hh.
  destruct (succeeds_exprToString fuel expr options Hwf Hh st) as (out & st' & H).
  exists out. rewrite H. f_equal. eapply restores_exprToString. exact H.
Qed.

Lemma wellformed_tree_renders_witness :
  exists out,
    exprToString 5
      (VExpr (VObj [("let", VArr [VObj [("x", VNum 1)]]);
                    ("in", VExpr (VObj [("var", VStr "x")]))]))
      OptNone initial = Ok out initial.
Proof.
  apply wellformed_tree_renders; [reflexivity | apply Nat.leb_le; reflexivity].
Defined.

(** ** The compactness decision *)

(** [isCompact] is not the specification's notion of a simple child: an
    unwrapped array or record passes it, and a wrapped scalar does not. *)
Example isCompact_vs_specSimple :
  isCompact (VArr [VNum 1]) = true /\ specSimple (VArr [VNum 1]) = false /\
  isCompact (VValue (VStr "2019-01-01") "Time(x)") = false /\
  specSimple (VValue (VStr "2019-01-01") "Time(x)") = true.
Proof. repeat split; reflexivity. Qed.

(** C1 (as stated, refuted): the sequence [[ [1] ]], rendered from a state
    that is not compact, has a child that is a nested sequence, yet it is
    laid out compact, as [[[1]]]; and the sequence of one opaque scalar has
    only a leaf scalar for child, yet it is laid out expanded. *)
Lemma compact_despite_nested_sequence :
  forallb specSimple [VArr [VNum 1]] = false /\
  render 3 (VArr [VArr [VNum 1]]) OptNone
  = Ok (sequenceText (fun str _ => str) [] true 0 ["[1]"]) initial /\
  sequenceText (fun str _ => str) [] true 0 ["[1]"] = "[[1]]" /\
  forallb specSimple [VValue VNull "T"] = true /\
  render 3 (VArr [VValue VNull "T"]) OptNone
  = Ok (sequenceText (fun str _ => str) [] false 0 ["T"]) initial /\
  sequenceText (fun str _ => str) [] false 0 ["T"] = "[" ++ nl ++ marker ++ " T," ++ nl ++ "]".
Proof. repeat split; reflexivity. Qed.

(** C1 (amended): for every sequence, and every call rendered without the
    [compact] option, that is rendered while the flag [compact] is not set,
    the printer decides before it renders the children that the node is
    compact if and only if no immediate child is an instance of [Expr]
    ([isCompact]): the children are rendered under that flag and the layout
    of the node is written with it.  An array or record that is not wrapped
    counts as simple; a wrapped value, an opaque scalar too, does not. *)
Theorem compact_iff_no_child_is_wrapped fuel options st :
  compact st = false ->
  let o := normalize options in
  let recur := fun item => exprToString fuel item (OptObj o) in
  (forall items texts,
      items <> [] ->
      let c := forallb isCompact items in
      collect (fun item i => result (recur item (childState st c (KIdx i)))) 0 items
      = Some texts ->
      exprToString (S fuel) (VArr items) options st
      = Ok (sequenceText (mapOf o) (keyPath st) c (printDepth st) texts) st)
  /\
  (forall props key0 keys' texts,
      hasProp "object" (VObj props) = false ->
      map fst props = key0 :: keys' ->
      opt_compact o = false ->
      let c := forallb (fun key => isCompact (getProp (VObj props) key)) (key0 :: keys') in
      collect (fun key (_ : nat) =>
                 result (printPayload (mapOf o) recur (resolve key0) key
                           (getProp (VObj props) key) (childState st c (KStr key))))
        0 (key0 :: keys') = Some texts ->
      exprToString (S fuel) (VObj props) options st
      = Ok (callText (mapOf o) (keyPath st) c (printDepth st) (resolve key0)
              (key0 :: keys') texts) st).
Proof.
  intros Hflag. cbv zeta. set (o := normalize options).
  set (recur := fun item => exprToString fuel item (OptObj o)). split.
  - intros items texts Hne H. rewrite exprToString_sequence. fold o. fold recur.
    pose proof (printSequence_run (mapOf o) recur
                  (fun v => restores_exprToString fuel v (OptObj o)) items st texts Hne) as Hrun.
    cbv zeta in Hrun. rewrite Hflag in Hrun. cbn [orb] in Hrun.
    apply Hrun. exact H.
  - intros props key0 keys' texts Hobj Hkeys Hopt H.
    rewrite (exprToString_call _ _ _ Hobj). fold o. fold recur.
    pose proof (printCall_run (mapOf o) recur
                  (fun v => restores_exprToString fuel v (OptObj o))
                  (opt_compact o) (VObj props) key0 keys' st texts Hkeys) as Hrun.
    cbv zeta in Hrun. rewrite Hflag, Hopt in Hrun. cbn [orb] in Hrun.
    rewrite Hopt. apply Hrun. exact H.
Qed.

Lemma compact_iff_no_child_is_wrapped_witness :
  exprToString 3 (VArr [VNum 1; VExpr (VArr [])]) OptNone initial
  = Ok (sequenceText (fun str _ => str) [] false 0 ["1"; "[]"]) initial
  /\
  exprToString 3 (VObj [("add", VArr [VNum 1; VNum 2])]) OptNone initial
  = Ok (callText (fun str _ => str) [] true 0 (FnStr "Add") ["add"] ["[1,2]"]) initial.
Proof.
  pose proof (compact_iff_no_child_is_wrapped 2 OptNone initial eq_refl) as [Hseq Hcall].
  split.
  - apply (Hseq [VNum 1; VExpr (VArr [])] ["1"; "[]"]); [discriminate | reflexivity].
  - apply (Hcall [("add", VArr [VNum 1; VNum 2])] "add" [] ["[1,2]"]); reflexivity.
Defined.

(** ** The reversal set *)

Lemma reversal_name_facts name :
  In name ["Filter"; "Map"; "Foreach"] ->
  shouldReverseArgs (FnStr name) = true /\ fnIs (FnStr name) "Let" = false.
Proof.
  intros [H | [H | [H | []]]]; subst; split; reflexivity.
Qed.

(** C6: for every call whose display name is in the reversal set ([Filter],
    [Map], [Foreach]) and whose record has the two keys [a] then [b] with
    the values [X] and [Y], the argument list is reversed before it is
    joined: in the output the text of [Y] comes before the text of [X].
    (Each argument carries the separator it was given before the reversal.) *)
Theorem reversal_set_prints_second_key_first
    fuel options st a b X Y name rx ry :
  let o := normalize options in
  let c := compact st || (opt_compact o || (isCompact X && isCompact Y)) in
  let inner key := childState st c (KStr key) in
  let shown key text :=
    indentText c (printDepth st + 1) (mapOf o text (keyPath st ++ [KStr key])%list) in
  a <> b -> a <> "object" -> b <> "object" ->
  resolve a = FnStr name ->
  In name ["Filter"; "Map"; "Foreach"] ->
  exprToString fuel X (OptObj o) (inner a) = Ok rx (inner a) ->
  exprToString fuel Y (OptObj o) (inner b) = Ok ry (inner b) ->
  exprToString (S fuel) (VObj [(a, X); (b, Y)]) options st
  = Ok (eolText c (name ++ "(")
        ++ (shown b ry ++ (if c then "" else eolText c ","))
        ++ (shown a rx ++ eolText c ",")
        ++ indentText c (printDepth st) ")") st.
Proof.
  intros o c inner shown Hab Ha Hb Hname Hin HX HY.
  destruct (reversal_name_facts name Hin) as [Hrev Hlet].
  assert (Eab : String.eqb b a = false).
  { apply String.eqb_neq. congruence. }
  assert (Hobj : hasProp "object" (VObj [(a, X); (b, Y)]) = false).
  { unfold hasProp. cbn [ownProps map fst existsb].
    apply String.eqb_neq in Ha, Hb.
    rewrite String.eqb_sym in Ha. rewrite String.eqb_sym in Hb.
    rewrite Ha, Hb. reflexivity. }
  assert (GX : getProp (VObj [(a, X); (b, Y)]) a = X).
  { unfold getProp. cbn [ownProps assoc]. rewrite String.eqb_refl. reflexivity. }
  assert (GY : getProp (VObj [(a, X); (b, Y)]) b = Y).
  { unfold getProp. cbn [ownProps assoc]. rewrite Eab, String.eqb_refl. reflexivity. }
  rewrite (exprToString_call _ _ _ Hobj). fold o.
  rewrite (printCall_run (mapOf o) (fun item => exprToString fuel item (OptObj o))
             (fun v => restores_exprToString fuel v (OptObj o))
             (opt_compact o) (VObj [(a, X); (b, Y)]) a [b] st [rx; ry] eq_refl).
  - rewrite Hname. unfold callText. rewrite Hrev.
    cbn [forallb]. rewrite GX, GY. rewrite andb_true_r. fold c.
    cbn [List.length map combine entries rev app join fold_right].
    unfold commaText. cbn [Nat.eqb Nat.sub]. rewrite andb_false_r, andb_true_r.
    unfold shown. cbn [String_fn].
    rewrite append_nil_r, !append_assoc. reflexivity.
  - cbn [forallb collect]. rewrite GX, GY. rewrite andb_true_r. fold c.
    rewrite Hname. unfold printPayload. rewrite Hlet. cbn [andb].
    unfold inner in HX, HY. rewrite HX, HY. reflexivity.
Qed.

Lemma reversal_set_prints_second_key_first_witness :
  exprToString 3 (VObj [("map", VStr "f"); ("collection", VArr [VNum 1])]) OptNone initial
  = Ok ("Map(" ++ "[1]" ++ (String dquote ("f" ++ String dquote ",")) ++ ")") initial.
Proof.
  apply (reversal_set_prints_second_key_first 2 OptNone initial
           "map" "collection" (VStr "f") (VArr [VNum 1]) "Map"
           (String dquote ("f" ++ String dquote "")) "[1]");
    try discriminate; try reflexivity.
  right. left. reflexivity.
Defined.

(** Scenario 4: the collection is printed before the function. *)
Example map_prints_collection_first :
  render 5 (VExpr (VObj [("map", VExpr (VObj [("var", VStr "f")]));
                         ("collection", VExpr (VArr [VNum 1]))])) OptNone
  = Ok ("Map(" ++ nl
        ++ marker ++ " [1]," ++ nl
        ++ marker ++ " Var(" ++ String dquote ("f" ++ String dquote ("),"  ++ nl
        ++ ")"))) initial.
Proof. reflexivity. Qed.

(** ** The binding call *)

(** C7: for every call whose display name is [Let], the payload under the
    key [let] is printed as an object literal ([printObject]) when it is a
    single record and as a sequence of object literals ([printArray] with
    [printObject]) when it is an array, not by [exprToString]; the payload
    under every other key is printed by [exprToString], as an ordinary
    argument of the call.  [texts] are the texts so obtained, key by key. *)
Theorem binding_payload_printed_as_literal
    fuel options st props key0 keys' texts :
  let expr := VObj props in
  let o := normalize options in
  let hook := mapOf o in
  let recur := fun item => exprToString fuel item (OptObj o) in
  let keys := key0 :: keys' in
  let c := compact st
           || (opt_compact o || forallb (fun key => isCompact (getProp expr key)) keys) in
  hasProp "object" expr = false ->
  map fst props = keys ->
  resolve key0 = FnStr "Let" ->
  collect (fun key (_ : nat) =>
             result ((if String.eqb key "let"
                      then match getProp expr key with
                           | VArr items => printArray hook items (printObject hook recur)
                           | _ => printObject hook recur (getProp expr key)
                           end
                      else exprToString fuel (getProp expr key) (OptObj o))
                       (childState st c (KStr key)))) 0 keys = Some texts ->
  exprToString (S fuel) expr options st
  = Ok (callText hook (keyPath st) c (printDepth st) (FnStr "Let") keys texts) st.
Proof.
  intros expr o hook recur keys c Hobj Hkeys Hname H.
  unfold expr. rewrite (exprToString_call _ _ _ Hobj). fold o. fold hook. fold recur.
  rewrite <- Hname.
  apply (printCall_run hook recur (fun v => restores_exprToString fuel v (OptObj o))
           (opt_compact o) (VObj props) key0 keys' st texts Hkeys).
  rewrite Hname. exact H.
Qed.

Lemma binding_payload_printed_as_literal_witness :
  exprToString 4
    (VObj [("let", VArr [VObj [("x", VNum 1)]]); ("in", VExpr (VObj [("var", VStr "x")]))])
    OptTrue initial
  = Ok ("Let([{x:1}],Var(" ++ String dquote ("x" ++ String dquote "))")) initial.
Proof.
  apply (binding_payload_printed_as_literal 3 OptTrue initial
           [("let", VArr [VObj [("x", VNum 1)]]); ("in", VExpr (VObj [("var", VStr "x")]))]
           "let" ["in"]
           ["[{x:1}]"; "Var(" ++ String dquote ("x" ++ String dquote ")")]);
    reflexivity.
Defined.

(** Scenario 3, expanded: the binding is not printed as the call [X(1)]. *)
Example let_binding_expanded :
  render 4
    (VObj [("let", VArr [VObj [("x", VNum 1)]]); ("in", VExpr (VObj [("var", VStr "x")]))])
    OptNone
  = Ok ("Let(" ++ nl
        ++ marker ++ " [" ++ nl
        ++ marker ++ " " ++ marker ++ " {" ++ nl
        ++ marker ++ " " ++ marker ++ " " ++ marker ++ " x: 1," ++ nl
        ++ marker ++ " " ++ marker ++ " }," ++ nl
        ++ marker ++ " ]," ++ nl
        ++ marker ++ " Var(" ++ String dquote ("x" ++ String dquote ("),"  ++ nl
        ++ ")"))) initial
  /\ render 4 (VArr [VObj [("x", VNum 1)]]) OptTrue = Ok "[X(1)]" initial.
Proof. split; reflexivity. Qed.

(** ** Name resolution *)

Example resolve_overrides :
  resolve "is_nonempty" = FnStr "IsNonEmpty" /\ resolve "lt" = FnStr "LT" /\
  resolve "lte" = FnStr "LTE" /\ resolve "gt" = FnStr "GT" /\ resolve "gte" = FnStr "GTE".
Proof. repeat split; reflexivity. Qed.

Example resolve_select_all :
  resolve "select_all" = FnStr "SelectAll" /\ resolve "" = FnStr "" /\
  resolve "_a__bC_" = FnStr "ABC".
Proof. repeat split; reflexivity. Qed.

(** For every key that is not the name of a member of [Object.prototype],
    the name is the entry of the table, or else the PascalCase of the key. *)
Lemma resolve_override_or_pascalCase key :
  existsb (String.eqb key) objectPrototype = false ->
  resolve key = FnStr (match lookupTable key specialCases with
                       | Some name => name
                       | None => pascalCase key
                       end).
Proof.
  intros H. unfold resolve. destruct (lookupTable key specialCases); [reflexivity | ].
  rewrite H. reflexivity.
Qed.

Lemma split_segment sep seg rest :
  (forall c, In c (list_ascii_of_string seg) -> Ascii.eqb c sep = false) ->
  split sep (seg ++ String sep rest) = seg :: split sep rest.
Proof.
  induction seg as [| c seg IH]; intros H; simpl.
  - rewrite Ascii.eqb_refl. reflexivity.
  - rewrite (H c) by (left; reflexivity).
    rewrite IH; [reflexivity | ]. intros c' Hc'. apply H. right. exact Hc'.
Qed.

(** PascalCase, segment by segment: the first character of a segment in
    upper case, the others as they are, and no separator. *)
Lemma pascalCase_segment seg rest :
  (forall c, In c (list_ascii_of_string seg) -> Ascii.eqb c "_" = false) ->
  pascalCase (seg ++ String "_" rest) = capitalize seg ++ pascalCase rest.
Proof.
  intros H. unfold pascalCase. rewrite (split_segment _ _ _ H). reflexivity.
Qed.

(** C3 (the code departs from it): the key [constructor] is none of the
    five overrides, so the claim gives it the name [Constructor]; the read
    [specialCases[key]] finds the member [constructor] that the table
    inherits from [Object.prototype], and that function becomes the name. *)
Theorem inherited_member_taken_for_override :
  lookupTable "constructor" specialCases = None /\
  pascalCase "constructor" = "Constructor" /\
  resolve "constructor" = FnProto "constructor" /\
  render 2 (VObj [("constructor", VNum 1)]) OptNone
  = Ok "function Object() { [native code] }(1)" initial.
Proof. repeat split; reflexivity. Qed.

(** ** The [compact] option *)

(** C4 (the code departs from it): [options.compact] is read in the call
    branch only.  With the option set, an object literal at the root is laid
    out on several lines, with indentation markers, and so is a sequence at
    the root that has a wrapped child; a call at the root is not. *)
Theorem compact_option_ignored_outside_calls :
  render 3 (VExpr (VObj [("object", VObj [("x", VNum 1)])])) OptTrue
  = Ok ("{" ++ nl ++ marker ++ " x: 1," ++ nl ++ "}") initial
  /\
  render 3 (VExpr (VArr [VExpr (VArr [])])) OptTrue
  = Ok ("[" ++ nl ++ marker ++ " []," ++ nl ++ "]") initial
  /\
  render 3 (VExpr (VObj [("foo", VExpr (VArr [VExpr (VArr [])]))])) OptTrue
  = Ok "Foo([[]])" initial.
Proof. repeat split; reflexivity. Qed.

(** ** Scenarios *)

(** The call [{add: [1, 2]}] with the option [compact] is printed
    [Add([1,2])], with the brackets of the sequence, and not [Add(1,2)]:
    [Add] is in [varArgsFunctions], but the printer does not read that list. *)
Lemma add_keeps_brackets :
  render 3 (VObj [("add", VArr [VNum 1; VNum 2])]) OptTrue = Ok "Add([1,2])" initial /\
  render 3 (VObj [("add", VArr [VNum 1; VNum 2])]) OptTrue <> Ok "Add(1,2)" initial.
Proof. split; [reflexivity | discriminate]. Qed.

(** C5 (the code departs from it): the call [{add: [1, 2]}] should be
    printed [Add(1,2)] in compact mode, the elements of the payload being
    the arguments of the variadic function [Add], and one element per
    indented line in expanded mode.  The printer never reads
    [varArgsFunctions] and prints the payload as the sequence it is: the
    output is [Add([1,2])] with the option [compact] and without it (the
    one child is not wrapped, so the call is compact by inference), whatever
    the fuel; with the payload wrapped, [{add: Expr([1, 2])}], and without
    the option, it is [Add(], a line break, the one indented line [[1,2],],
    and [)]. *)
Theorem add_scenario fuel :
  exprToString (3 + fuel) (VObj [("add", VArr [VNum 1; VNum 2])]) OptTrue initial
  = Ok "Add([1,2])" initial
  /\
  exprToString (3 + fuel) (VObj [("add", VArr [VNum 1; VNum 2])]) OptNone initial
  = Ok "Add([1,2])" initial
  /\
  exprToString (3 + fuel) (VObj [("add", VExpr (VArr [VNum 1; VNum 2]))]) OptNone initial
  = Ok ("Add(" ++ nl ++ marker ++ " [1,2]," ++ nl ++ ")") initial.
Proof. repeat split; reflexivity. Qed.

(** C9 (as stated, refuted): in compact mode the object literal
    [{object: {x: 1, y: "z"}}] is printed without a space after the colons;
    at the root it is printed expanded, the option [compact] set or not. *)
Lemma object_literal_has_no_space_when_compact :
  exprToString 2 (VObj [("object", VObj [("x", VNum 1); ("y", VStr "z")])]) OptTrue
    (mkState [] true 0)
  = Ok ("{x:1,y:" ++ String dquote ("z" ++ String dquote "}")) (mkState [] true 0)
  /\
  exprToString 2 (VObj [("object", VObj [("x", VNum 1); ("y", VStr "z")])]) OptTrue
    (mkState [] true 0)
  <> Ok ("{x: 1,y: " ++ String dquote ("z" ++ String dquote "}")) (mkState [] true 0)
  /\
  render 2 (VObj [("object", VObj [("x", VNum 1); ("y", VStr "z")])]) OptTrue
  = Ok ("{" ++ nl ++ marker ++ " x: 1," ++ nl
        ++ marker ++ " y: " ++ String dquote ("z" ++ String dquote ("," ++ nl ++ "}"))) initial.
Proof. split; [reflexivity | split; [discriminate | reflexivity]]. Qed.

(** C9 (amended): rendered in compact mode, that is with the flag [compact]
    set, the object literal [{object: {x: 1, y: "z"}}] gives exactly
    [{x:1,y:"z"}]: no space after a colon, none after the comma. *)
Theorem object_literal_compact fuel options path depth :
  opt_map (normalize options) = None ->
  exprToString (2 + fuel) (VObj [("object", VObj [("x", VNum 1); ("y", VStr "z")])]) options
    (mkState path true depth)
  = Ok ("{x:1,y:" ++ String dquote ("z" ++ String dquote "}")) (mkState path true depth).
Proof.
  intros Hmap.
  change (2 + fuel) with (S (S fuel)).
  rewrite exprToString_objectLiteral by reflexivity.
  rewrite (printObject_run _ _ (fun v => restores_exprToString (S fuel) v _)
             (VObj [("x", VNum 1); ("y", VStr "z")]) "x" ["y"] path true depth
             ["1"; String dquote ("z" ++ String dquote "")]); try reflexivity.
  unfold mapOf. rewrite Hmap. reflexivity.
Qed.

Lemma object_literal_compact_witness :
  exprToString 2 (VObj [("object", VObj [("x", VNum 1); ("y", VStr "z")])]) OptNone
    (mkState [KStr "foo"] true 1)
  = Ok ("{x:1,y:" ++ String dquote ("z" ++ String dquote "}")) (mkState [KStr "foo"] true 1).
Proof.
  apply (object_literal_compact 0 OptNone [KStr "foo"] 1). reflexivity.
Defined.

(** * Further properties of the printer *)

(** ** The layout of every composite node *)

(** A non-empty sequence is written as [[], one entry per element, and []]
    under the flag it inherits, or else infers from its elements; the
    element of index [i] is rendered one level deeper with [i] pushed on
    the key path, and its text goes through the hook with that path. *)
Theorem sequence_layout fuel options st items texts :
  items <> [] ->
  let o := normalize options in
  let c := compact st || forallb isCompact items in
  collect (fun item i =>
             result (exprToString fuel item (OptObj o) (childState st c (KIdx i)))) 0 items
  = Some texts ->
  exprToString (S fuel) (VArr items) options st
  = Ok (sequenceText (mapOf o) (keyPath st) c (printDepth st) texts) st.
Proof.
  intros Hne o c H. rewrite exprToString_sequence.
  apply (printSequence_run (mapOf o) (fun item => exprToString fuel item (OptObj o))
           (fun v => restores_exprToString fuel v (OptObj o)) items st texts Hne).
  exact H.
Qed.

Lemma sequence_layout_witness :
  exprToString 2 (VArr [VNum 1; VExpr (VArr [])]) OptTrue (mkState [KStr "k"] true 3)
  = Ok "[1,[]]" (mkState [KStr "k"] true 3).
Proof.
  apply (sequence_layout 1 OptTrue (mkState [KStr "k"] true 3)
           [VNum 1; VExpr (VArr [])] ["1"; "[]"]); [discriminate | reflexivity].
Defined.

(** A record without the key [object] and with at least one key is written
    as a call: the name resolved from its first key, [(], one argument per
    key in the order of the keys, reversed when the name is in the reversal
    set, and [)].  Its flag is the inherited one, or else the option
    [compact], or else inferred from the values.  Each value is rendered
    one level deeper with its key pushed on the key path. *)
Theorem call_layout fuel options st props key0 keys' texts :
  let expr := VObj props in
  let o := normalize options in
  let recur := fun item => exprToString fuel item (OptObj o) in
  let keys := key0 :: keys' in
  let c := compact st
           || (opt_compact o || forallb (fun key => isCompact (getProp expr key)) keys) in
  hasProp "object" expr = false ->
  map fst props = keys ->
  collect (fun key (_ : nat) =>
             result (printPayload (mapOf o) recur (resolve key0) key (getProp expr key)
                       (childState st c (KStr key)))) 0 keys = Some texts ->
  exprToString (S fuel) expr options st
  = Ok (callText (mapOf o) (keyPath st) c (printDepth st) (resolve key0) keys texts) st.
Proof.
  intros expr o recur keys c Hobj Hkeys H.
  unfold expr. rewrite (exprToString_call _ _ _ Hobj).
  apply (printCall_run (mapOf o) recur (fun v => restores_exprToString fuel v (OptObj o))
           (opt_compact o) (VObj props) key0 keys' st texts Hkeys).
  exact H.
Qed.

Lemma call_layout_witness :
  exprToString 2 (VObj [("foreach", VNum 1); ("collection", VNum 2); ("extra", VNum 3)])
    OptNone initial
  = Ok "Foreach(32,1,)" initial.
Proof.
  apply (call_layout 1 OptNone initial
           [("foreach", VNum 1); ("collection", VNum 2); ("extra", VNum 3)]
           "foreach" ["collection"; "extra"] ["1"; "2"; "3"]); reflexivity.
Defined.

(** An object literal with at least one field is written as [{], one entry
    [key: text] per field, and [}], under the flag it inherits: it makes no
    compactness decision of its own, so at the root it is laid out expanded
    even when all its values are simple. *)
Theorem object_literal_layout fuel options st props key0 keys' texts :
  let payload := getProp (VObj props) "object" in
  let o := normalize options in
  hasProp "object" (VObj props) = true ->
  isNullish payload = false ->
  map fst (ownProps payload) = key0 :: keys' ->
  collect (fun key (_ : nat) =>
             result (exprToString fuel (getProp payload key) (OptObj o)
                       (childState st (compact st) (KStr key)))) 0 (key0 :: keys')
  = Some texts ->
  exprToString (S fuel) (VObj props) options st
  = Ok (objectText (mapOf o) (keyPath st) (compact st) (printDepth st) (key0 :: keys') texts) st.
Proof.
  intros payload o Hobj Hnn Hkeys H.
  rewrite (exprToString_objectLiteral _ _ _ Hobj). fold o. fold payload.
  destruct st as [kp c d]. unfold childState in H. cbn [keyPath compact printDepth] in *.
  apply (printObject_run (mapOf o) (fun item => exprToString fuel item (OptObj o))
           (fun v => restores_exprToString fuel v (OptObj o))
           payload key0 keys' kp c d texts Hnn Hkeys H).
Qed.

Lemma object_literal_layout_witness :
  exprToString 2 (VObj [("object", VObj [("x", VNum 1)])]) OptTrue initial
  = Ok ("{" ++ nl ++ marker ++ " x: 1," ++ nl ++ "}") initial.
Proof.
  apply (object_literal_layout 1 OptTrue initial
           [("object", VObj [("x", VNum 1)])] "x" [] ["1"]); reflexivity.
Defined.

(** A record that has the key [object], in whatever position, is printed as
    the object literal of that payload: its other keys are not printed. *)
Theorem object_key_hides_other_keys fuel options props :
  hasProp "object" (VObj props) = true ->
  exprToString (S fuel) (VObj props) options
  = exprToString (S fuel) (VObj [("object", getProp (VObj props) "object")]) options.
Proof.
  intros H. rewrite (exprToString_objectLiteral _ _ _ H).
  rewrite exprToString_objectLiteral by reflexivity. reflexivity.
Qed.

Lemma object_key_hides_other_keys_witness :
  exprToString 3 (VObj [("add", VArr [VNum 1]); ("object", VObj [])]) OptNone
  = exprToString 3 (VObj [("object", VObj [])]) OptNone.
Proof.
  apply (object_key_hides_other_keys 2 OptNone
           [("add", VArr [VNum 1]); ("object", VObj [])]).
  reflexivity.
Defined.

(** ** Empty and missing payloads *)

(** The empty sequence is [[]], and an object literal whose payload has no
    own property (an empty record, but also a number, a boolean, the empty
    string or the empty array) is [{}]: in every state, compact or not, with
    any options, and the state is left as it is. *)
Theorem empty_composites_are_never_expanded fuel options st :
  exprToString (S fuel) (VArr []) options st = Ok "[]" st
  /\
  forall props,
    hasProp "object" (VObj props) = true ->
    isNullish (getProp (VObj props) "object") = false ->
    ownProps (getProp (VObj props) "object") = [] ->
    exprToString (S fuel) (VObj props) options st = Ok "{}" st.
Proof.
  split.
  - rewrite exprToString_sequence. unfold printSequence, printArray.
    destruct st as [kp [|] d]; reflexivity.
  - intros props Hobj Hnn Hown. rewrite (exprToString_objectLiteral _ _ _ Hobj).
    unfold printObject, Object_keys. rewrite Hnn, Hown. reflexivity.
Qed.

Lemma empty_composites_are_never_expanded_witness :
  exprToString 1 (VArr []) OptNone (mkState [] false 4) = Ok "[]" (mkState [] false 4)
  /\ exprToString 1 (VObj [("object", VNum 5)]) OptNone (mkState [] false 4)
     = Ok "{}" (mkState [] false 4).
Proof.
  destruct (empty_composites_are_never_expanded 0 OptNone (mkState [] false 4)) as [H1 H2].
  split; [exact H1 | apply H2; reflexivity].
Defined.

(** A payload [null] or [undefined] under the key [object] raises the
    [TypeError] of [Object.keys], and a record with no key at all the one of
    [keys[0].split]; both are raised before the state is touched. *)
Theorem missing_payload_raises fuel options st :
  exprToString (S fuel) (VObj []) options st = Throw st
  /\
  forall props,
    hasProp "object" (VObj props) = true ->
    isNullish (getProp (VObj props) "object") = true ->
    exprToString (S fuel) (VObj props) options st = Throw st.
Proof.
  split; [reflexivity | ].
  intros props Hobj Hnull. rewrite (exprToString_objectLiteral _ _ _ Hobj).
  unfold printObject, Object_keys. rewrite Hnull. reflexivity.
Qed.

Lemma missing_payload_raises_witness :
  exprToString 1 (VObj [("object", VUndefined)]) OptTrue (mkState [KIdx 0] true 2)
  = Throw (mkState [KIdx 0] true 2).
Proof.
  destruct (missing_payload_raises 0 OptTrue (mkState [KIdx 0] true 2)) as [_ H].
  apply H; reflexivity.
Defined.

(** ** Wrappers *)

(** [exprToString] unwraps an [Expr] once.  Wrapping a value that is not
    itself an instance of [Expr] does not change its text; a wrapper around
    a wrapper is printed as the call [Raw] on the inner one, and a wrapper
    around an opaque value as the call [Value] on its property [value], not
    as the text of its [toString()]. *)
Theorem wrapper_is_unwrapped_once fuel options st :
  let o := normalize options in
  (forall r, instanceofExpr r = false ->
     exprToString (S fuel) (VExpr r) options st = exprToString (S fuel) r options st)
  /\
  (forall r text,
     let c := compact st || (opt_compact o || isCompact r) in
     exprToString fuel r (OptObj o) (childState st c (KStr "raw"))
     = Ok text (childState st c (KStr "raw")) ->
     exprToString (S fuel) (VExpr (VExpr r)) options st
     = Ok (callText (mapOf o) (keyPath st) c (printDepth st) (FnStr "Raw") ["raw"] [text]) st)
  /\
  (forall x shown text,
     let c := compact st || (opt_compact o || isCompact x) in
     exprToString fuel x (OptObj o) (childState st c (KStr "value"))
     = Ok text (childState st c (KStr "value")) ->
     exprToString (S fuel) (VExpr (VValue x shown)) options st
     = Ok (callText (mapOf o) (keyPath st) c (printDepth st) (FnStr "Value") ["value"] [text]) st).
Proof.
  intros o. split; [ | split ].
  - intros r Hr. destruct r; try discriminate Hr; reflexivity.
  - intros r text c H.
    change (exprToString (S fuel) (VExpr (VExpr r)) options st)
      with (printCall (mapOf o) (fun item => exprToString fuel item (OptObj o))
              (opt_compact o) (VExpr r) st).
    rewrite (printCall_run (mapOf o) (fun item => exprToString fuel item (OptObj o))
               (fun v => restores_exprToString fuel v (OptObj o))
               (opt_compact o) (VExpr r) "raw" [] st [text] eq_refl).
    + cbn [forallb]. rewrite andb_true_r. reflexivity.
    + cbn [forallb collect]. rewrite andb_true_r.
      change (getProp (VExpr r) "raw") with r.
      change (printPayload (mapOf o) (fun item => exprToString fuel item (OptObj o))
                (resolve "raw") "raw" r)
        with (exprToString fuel r (OptObj o)).
      fold c. rewrite H. reflexivity.
  - intros x shown text c H.
    change (exprToString (S fuel) (VExpr (VValue x shown)) options st)
      with (printCall (mapOf o) (fun item => exprToString fuel item (OptObj o))
              (opt_compact o) (VValue x shown) st).
    rewrite (printCall_run (mapOf o) (fun item => exprToString fuel item (OptObj o))
               (fun v => restores_exprToString fuel v (OptObj o))
               (opt_compact o) (VValue x shown) "value" [] st [text] eq_refl).
    + cbn [forallb]. rewrite andb_true_r. reflexivity.
    + cbn [forallb collect]. rewrite andb_true_r.
      change (getProp (VValue x shown) "value") with x.
      change (printPayload (mapOf o) (fun item => exprToString fuel item (OptObj o))
                (resolve "value") "value" x)
        with (exprToString fuel x (OptObj o)).
      fold c. rewrite H. reflexivity.
Qed.

Lemma wrapper_is_unwrapped_once_witness :
  exprToString 2 (VExpr (VNum 7)) OptNone initial = exprToString 2 (VNum 7) OptNone initial
  /\ exprToString 2 (VExpr (VExpr (VNum 7))) OptNone initial = Ok "Raw(7)" initial
  /\ exprToString 2 (VExpr (VValue (VStr "a") "Ref(a)")) OptNone initial
     = Ok ("Value(" ++ String dquote ("a" ++ String dquote ")")) initial.
Proof.
  destruct (wrapper_is_unwrapped_once 1 OptNone initial) as (H1 & H2 & H3).
  split; [apply H1; reflexivity | ].
  split; [apply (H2 (VNum 7) "7"); reflexivity | ].
  apply (H3 (VStr "a") "Ref(a)" (String dquote ("a" ++ String dquote ""))); reflexivity.
Defined.

(** ** Compact mode writes no indentation *)

Lemma depthBlind_weaken {A} (Q Q' : A -> Prop) (m : M A) :
  (forall a, Q a -> Q' a) -> depthBlind Q m -> depthBlind Q' m.
Proof.
  intros HQ Hm st st' Ht. specialize (Hm st st' Ht).
  destruct (m st), (m st'); try exact Hm.
  destruct Hm as (E & Ha & Hs). auto.
Qed.

Lemma depthBlind_ret {A} (a : A) : depthBlind (fun x => x = a) (ret a).
Proof. intros st st' Ht. simpl. auto. Qed.

Lemma depthBlind_bind {A B} (Q : A -> Prop) (Q' : B -> Prop) (m : M A) (f : A -> M B) :
  depthBlind Q m -> (forall a, Q a -> depthBlind Q' (f a)) -> depthBlind Q' (bind m f).
Proof.
  intros Hm Hf st st' Ht. specialize (Hm st st' Ht). unfold bind.
  destruct (m st) as [a s | s | ], (m st') as [a' s' | s' | ];
    try contradiction; try exact I.
  destruct Hm as (E & Ha & Hs). subst a'. apply (Hf a Ha s s' Hs).
Qed.

Lemma depthBlind_getCompact : depthBlind (fun c => c = true) getCompact.
Proof. intros st st' (Hk & Hc & Hc'). simpl. rewrite Hc, Hc'. repeat split; assumption. Qed.

Lemma depthBlind_getKeyPath : depthBlind anyValue getKeyPath.
Proof. intros st st' Ht. simpl. destruct Ht as (Hk & Hc & Hc'). repeat split; assumption. Qed.

Lemma depthBlind_push k : depthBlind anyValue (push k).
Proof.
  intros st st' (Hk & Hc & Hc'). simpl. repeat split; try assumption. rewrite Hk. reflexivity.
Qed.

Lemma depthBlind_pop : depthBlind anyValue pop.
Proof.
  intros st st' (Hk & Hc & Hc'). simpl. repeat split; try assumption. rewrite Hk. reflexivity.
Qed.

Lemma depthBlind_enter : depthBlind anyValue enter.
Proof. intros st st' (Hk & Hc & Hc'). simpl. repeat split; assumption. Qed.

Lemma depthBlind_leave : depthBlind anyValue leave.
Proof. intros st st' (Hk & Hc & Hc'). simpl. repeat split; assumption. Qed.

Lemma depthBlind_setCompact_true : depthBlind anyValue (setCompact true).
Proof. intros st st' (Hk & Hc & Hc'). simpl. repeat split; assumption. Qed.

Lemma depthBlind_indent input : depthBlind anyValue (indent input).
Proof.
  intros st st' (Hk & Hc & Hc'). unfold indent. rewrite Hc, Hc'.
  repeat split; assumption.
Qed.

Lemma depthBlind_eol input : depthBlind anyValue (eol input).
Proof.
  intros st st' (Hk & Hc & Hc'). unfold eol. rewrite Hc, Hc'.
  repeat split; assumption.
Qed.

Lemma depthBlind_comma i length : depthBlind anyValue (comma i length).
Proof.
  intros st st' (Hk & Hc & Hc'). unfold comma. rewrite Hc, Hc'.
  repeat split; assumption.
Qed.

Lemma depthBlind_throw {A} : depthBlind anyValue (@throwTypeError A).
Proof. intros st st' Ht. exact I. Qed.

Lemma depthBlind_any {A} (Q : A -> Prop) (m : M A) : depthBlind Q m -> depthBlind anyValue m.
Proof. apply depthBlind_weaken. intros; exact I. Qed.

Create HintDb blind.
#[local] Hint Resolve depthBlind_getKeyPath depthBlind_push depthBlind_pop depthBlind_enter
  depthBlind_leave depthBlind_setCompact_true depthBlind_indent depthBlind_eol
  depthBlind_comma depthBlind_throw : blind.

Ltac blind_bind :=
  apply (depthBlind_bind anyValue anyValue); [ | intros ? _ ].

Lemma depthBlind_mapM {A B} (f : A -> nat -> M B) (l : list A) :
  (forall x i, depthBlind anyValue (f x i)) ->
  forall i, depthBlind anyValue (mapM f i l).
Proof.
  intros Hf. induction l as [| x rest IH]; intros i; simpl.
  - apply (depthBlind_any _ _ (depthBlind_ret [])).
  - blind_bind; [apply Hf | ]. blind_bind; [apply IH | ].
    apply (depthBlind_any _ _ (depthBlind_ret _)).
Qed.

Lemma depthBlind_indentBlock {A} (m : M A) :
  depthBlind anyValue m -> depthBlind anyValue (indentBlock m).
Proof.
  intros H. unfold indentBlock.
  blind_bind; [auto with blind | ]. blind_bind; [exact H | ].
  blind_bind; [auto with blind | ]. apply (depthBlind_any _ _ (depthBlind_ret _)).
Qed.

Section ClosuresBlind.
Variable map_ : string -> list pathKey -> string.
Variable recur : value -> M string.
Hypothesis recur_blind : forall v, depthBlind anyValue (recur v).

Lemma depthBlind_printItem toStr length v i :
  depthBlind anyValue (toStr v) -> depthBlind anyValue (printItem map_ toStr length v i).
Proof.
  intros H. unfold printItem.
  blind_bind; [auto with blind | ]. blind_bind; [exact H | ].
  blind_bind; [auto with blind | ]. blind_bind; [auto with blind | ].
  blind_bind; [auto with blind | ]. blind_bind; [auto with blind | ].
  apply (depthBlind_any _ _ (depthBlind_ret _)).
Qed.

Lemma depthBlind_printArray array toStr :
  (forall v, depthBlind anyValue (toStr v)) ->
  depthBlind anyValue (printArray map_ array toStr).
Proof.
  intros H. unfold printArray.
  destruct array as [| v0 rest]; [apply (depthBlind_any _ _ (depthBlind_ret _)) | ].
  blind_bind; [auto with blind | ].
  blind_bind; [ | blind_bind; [auto with blind | apply (depthBlind_any _ _ (depthBlind_ret _))] ].
  apply depthBlind_indentBlock.
  blind_bind; [ | apply (depthBlind_any _ _ (depthBlind_ret _)) ].
  apply depthBlind_mapM. intros x i. apply depthBlind_printItem. apply H.
Qed.

Lemma depthBlind_printField obj length key i :
  depthBlind anyValue (printField map_ recur obj length key i).
Proof.
  unfold printField.
  blind_bind; [auto with blind | ]. blind_bind; [apply recur_blind | ].
  blind_bind; [auto with blind | ]. blind_bind; [auto with blind | ].
  apply (depthBlind_bind (fun c => c = true) anyValue); [apply depthBlind_getCompact | ].
  intros c ->.
  blind_bind; [auto with blind | ]. blind_bind; [auto with blind | ].
  apply (depthBlind_any _ _ (depthBlind_ret _)).
Qed.

Lemma depthBlind_printObject obj : depthBlind anyValue (printObject map_ recur obj).
Proof.
  unfold printObject. destruct (Object_keys obj) as [keys | ]; [ | auto with blind ].
  destruct keys as [| k0 rest]; [apply (depthBlind_any _ _ (depthBlind_ret _)) | ].
  blind_bind; [auto with blind | ].
  blind_bind; [ | blind_bind; [auto with blind | apply (depthBlind_any _ _ (depthBlind_ret _))] ].
  apply depthBlind_indentBlock.
  blind_bind; [ | apply (depthBlind_any _ _ (depthBlind_ret _)) ].
  apply depthBlind_mapM. intros x i. apply depthBlind_printField.
Qed.

Lemma depthBlind_printPayload fn key arg :
  depthBlind anyValue (printPayload map_ recur fn key arg).
Proof.
  unfold printPayload. destruct (fnIs fn "Let" && String.eqb key "let").
  - destruct arg; try apply depthBlind_printObject.
    apply depthBlind_printArray. intros v. apply depthBlind_printObject.
  - apply recur_blind.
Qed.

Lemma depthBlind_printArg expr fn length key i :
  depthBlind anyValue (printArg map_ recur expr fn length key i).
Proof.
  unfold printArg.
  blind_bind; [auto with blind | ]. blind_bind; [apply depthBlind_printPayload | ].
  blind_bind; [auto with blind | ]. blind_bind; [auto with blind | ].
  blind_bind; [auto with blind | ]. blind_bind; [auto with blind | ].
  apply (depthBlind_any _ _ (depthBlind_ret _)).
Qed.

Lemma depthBlind_printSequence items : depthBlind anyValue (printSequence map_ recur items).
Proof.
  unfold printSequence.
  apply (depthBlind_bind (fun c => c = true) anyValue); [apply depthBlind_getCompact | ].
  intros wasCompact ->. cbn [negb].
  blind_bind; [apply (depthBlind_any _ _ (depthBlind_ret _)) | ].
  blind_bind; [apply depthBlind_printArray; exact recur_blind | ].
  blind_bind; [auto with blind | ]. apply (depthBlind_any _ _ (depthBlind_ret _)).
Qed.

Lemma depthBlind_printCall optCompact expr :
  depthBlind anyValue (printCall map_ recur optCompact expr).
Proof.
  unfold printCall.
  destruct (map fst (ownProps expr)) as [| key0 keys']; [auto with blind | ].
  apply (depthBlind_bind (fun c => c = true) anyValue); [apply depthBlind_getCompact | ].
  intros wasCompact ->. cbn [negb].
  blind_bind; [apply (depthBlind_any _ _ (depthBlind_ret _)) | ].
  blind_bind.
  - apply depthBlind_indentBlock. apply depthBlind_mapM. intros key i.
    apply depthBlind_printArg.
  - blind_bind; [auto with blind | ]. blind_bind; [auto with blind | ].
    blind_bind; [auto with blind | ]. apply (depthBlind_any _ _ (depthBlind_ret _)).
Qed.
End ClosuresBlind.

Lemma depthBlind_printBody self expr options :
  (forall v o, depthBlind anyValue (self v o)) ->
  depthBlind anyValue (printBody self expr options).
Proof.
  intros H.
  assert (Hobj : depthBlind anyValue
            (if hasProp "object" expr
             then printObject (mapOf (normalize options))
                    (fun item => self item (OptObj (normalize options)))
                    (getProp expr "object")
             else printCall (mapOf (normalize options))
                    (fun item => self item (OptObj (normalize options)))
                    (opt_compact (normalize options)) expr)).
  { destruct (hasProp "object" expr).
    - apply depthBlind_printObject. intros v. apply H.
    - apply depthBlind_printCall. intros v. apply H. }
  destruct expr; simpl; try apply (depthBlind_any _ _ (depthBlind_ret _)); try exact Hobj.
  apply depthBlind_printSequence. intros v. apply H.
Qed.

Lemma depthBlind_exprToString fuel :
  forall expr options, depthBlind anyValue (exprToString fuel expr options).
Proof.
  induction fuel as [| fuel IH]; intros expr options.
  - intros st st' _. exact I.
  - destruct expr; cbn [exprToString];
      try apply (depthBlind_any _ _ (depthBlind_ret _)); apply depthBlind_printBody; exact IH.
Qed.

(** In compact mode the text does not depend on [printDepth]: nowhere in
    the tree does the printer write an indentation prefix, and a render
    that raises at one depth raises at every depth. *)
Theorem compact_text_ignores_depth fuel expr options path depth depth' :
  match exprToString fuel expr options (mkState path true depth),
        exprToString fuel expr options (mkState path true depth') with
  | Ok text _, Ok text' _ => text = text'
  | Throw _, Throw _ => True
  | OutOfFuel, OutOfFuel => True
  | _, _ => False
  end.
Proof.
  pose proof (depthBlind_exprToString fuel expr options
                (mkState path true depth) (mkState path true depth')) as H.
  assert (Ht : compactTwins (mkState path true depth) (mkState path true depth')).
  { repeat split. }
  specialize (H Ht).
  destruct (exprToString fuel expr options (mkState path true depth)),
           (exprToString fuel expr options (mkState path true depth')); try exact H.
  destruct H as (E & _). exact E.
Qed.

(** ** String literals *)

Lemma unquote_quoteChar c t :
  unquoteChars (quoteChar c ++ t) = option_map (String c) (unquoteChars t).
Proof.
  destruct c as [[|] [|] [|] [|] [|] [|] [|] [|]]; reflexivity.
Qed.

Lemma unquote_quoteChars s : unquoteChars (quoteChars s) = Some s.
Proof.
  induction s as [| c s IH]; [reflexivity | ].
  cbn [quoteChars]. rewrite unquote_quoteChar, IH. reflexivity.
Qed.

Lemma length_append (s t : string) :
  String.length (s ++ t) = String.length s + String.length t.
Proof. induction s as [| c s IH]; simpl; [reflexivity | rewrite IH; reflexivity]. Qed.

Lemma append_inj_l (s1 s2 t : string) : s1 ++ t = s2 ++ t -> s1 = s2.
Proof.
  revert s2. induction s1 as [| c s1 IH]; intros s2 H.
  - destruct s2 as [| c2 s2]; [reflexivity | ].
    apply (f_equal String.length) in H. simpl in H. rewrite length_append in H. lia.
  - destruct s2 as [| c2 s2].
    + apply (f_equal String.length) in H. simpl in H. rewrite length_append in H. lia.
    + simpl in H. inversion H; subst. f_equal. apply IH. assumption.
Qed.

(** Two strings that are printed as the same literal are the same string:
    the escapes of [JSON.stringify] lose nothing. *)
Lemma JSON_stringify_injective s1 s2 :
  JSON_stringify s1 = JSON_stringify s2 -> s1 = s2.
Proof.
  unfold JSON_stringify. intros H. inversion H as [H'].
  apply append_inj_l in H'.
  apply (f_equal unquoteChars) in H'. rewrite !unquote_quoteChars in H'.
  inversion H'. reflexivity.
Qed.

Lemma codes_append s t : codes (s ++ t) = (codes s ++ codes t)%list.
Proof.
  unfold codes. induction s as [| c s IH]; simpl; [reflexivity | f_equal; exact IH].
Qed.

Lemma quoteChar_printable c : Forall (fun n => 32 <= n) (codes (quoteChar c)).
Proof.
  destruct c as [[|] [|] [|] [|] [|] [|] [|] [|]];
    vm_compute; repeat constructor.
Qed.

Lemma quoteChars_printable s : Forall (fun n => 32 <= n) (codes (quoteChars s)).
Proof.
  induction s as [| c s IH]; [constructor | ].
  cbn [quoteChars]. rewrite codes_append. apply Forall_app. split.
  - apply quoteChar_printable.
  - exact IH.
Qed.

(** The literal of a string holds no character of a code below 32, so no
    line break: whatever the string, its text stays on one line.  (The
    characters of code 127 and above are written as they are.) *)
Lemma JSON_stringify_codes_from_32 s :
  Forall (fun n => 32 <= n) (codes (JSON_stringify s)).
Proof.
  unfold JSON_stringify.
  change (String dquote (quoteChars s ++ String dquote ""))
    with (String dquote "" ++ (quoteChars s ++ String dquote "")).
  rewrite !codes_append. apply Forall_app. split; [ | apply Forall_app; split ].
  - vm_compute. repeat constructor.
  - apply quoteChars_printable.
  - vm_compute. repeat constructor.
Qed.

(** ** Display names *)

Lemma toUpperCase_idempotent c : toUpperCase (toUpperCase c) = toUpperCase c.
Proof. destruct c as [[|] [|] [|] [|] [|] [|] [|] [|]]; reflexivity. Qed.

Lemma toUpperCase_underscore c : Ascii.eqb (toUpperCase c) "_" = Ascii.eqb c "_".
Proof. destruct c as [[|] [|] [|] [|] [|] [|] [|] [|]]; reflexivity. Qed.

Lemma split_segments_have_no_separator sep s :
  Forall (fun seg => existsb (Ascii.eqb sep) (list_ascii_of_string seg) = false) (split sep s).
Proof.
  induction s as [| c s IH]; simpl.
  - repeat constructor.
  - destruct (Ascii.eqb c sep) eqn:E.
    + constructor; [reflexivity | exact IH].
    + destruct (split sep s) as [| seg segs]; inversion IH; subst.
      * repeat constructor. simpl. rewrite Ascii.eqb_sym, E. reflexivity.
      * constructor; [ | assumption ]. simpl. rewrite Ascii.eqb_sym, E. assumption.
Qed.

Lemma split_is_never_empty sep s : split sep s <> [].
Proof.
  induction s as [| c s IH]; simpl; [discriminate | ].
  destruct (Ascii.eqb c sep); [discriminate | ].
  destruct (split sep s); discriminate.
Qed.

Lemma split_without_separator sep s :
  existsb (Ascii.eqb sep) (list_ascii_of_string s) = false -> split sep s = [s].
Proof.
  induction s as [| c s IH]; simpl; [reflexivity | ].
  intros H. apply orb_false_iff in H. destruct H as [Hc Hs].
  rewrite Ascii.eqb_sym, Hc. rewrite (IH Hs). reflexivity.
Qed.

Lemma chars_of_append s t :
  list_ascii_of_string (s ++ t) = (list_ascii_of_string s ++ list_ascii_of_string t)%list.
Proof. induction s as [| c s IH]; simpl; [reflexivity | f_equal; exact IH]. Qed.

Lemma capitalize_keeps_no_underscore seg :
  existsb (Ascii.eqb "_") (list_ascii_of_string seg) = false ->
  existsb (Ascii.eqb "_") (list_ascii_of_string (capitalize seg)) = false.
Proof.
  destruct seg as [| c seg]; [reflexivity | ].
  cbn [capitalize list_ascii_of_string existsb].
  intros H. apply orb_false_iff in H. destruct H as [Hc Hs].
  rewrite Hs, orb_false_r.
  rewrite Ascii.eqb_sym, toUpperCase_underscore, Ascii.eqb_sym. exact Hc.
Qed.

Lemma pascalCase_drops_underscores key :
  existsb (Ascii.eqb "_") (list_ascii_of_string (pascalCase key)) = false.
Proof.
  unfold pascalCase.
  pose proof (split_segments_have_no_separator "_" key) as H.
  induction (split "_" key) as [| seg segs IH]; [reflexivity | ].
  inversion H; subst. cbn [map join fold_right].
  rewrite chars_of_append, existsb_app.
  rewrite (capitalize_keeps_no_underscore _ H2). apply IH. assumption.
Qed.

(** The name that the generic rule gives to a key holds no underscore,
    whatever the key: underscores at the ends or in a row leave nothing. *)
Theorem pascalCase_has_no_underscore key :
  existsb (Ascii.eqb "_") (list_ascii_of_string (pascalCase key)) = false.
Proof. exact (pascalCase_drops_underscores key). Qed.

Lemma capitalize_join_capitalized segs :
  capitalize (join (map capitalize segs)) = join (map capitalize segs).
Proof.
  induction segs as [| seg segs IH]; [reflexivity | ].
  cbn [map join fold_right]. destruct seg as [| c seg].
  - exact IH.
  - simpl. rewrite toUpperCase_idempotent. reflexivity.
Qed.

(** Resolving a display name again changes nothing: the generic rule maps
    each of its results to itself (so the key [SelectAll] is shown as the
    key [select_all] is). *)
Theorem pascalCase_idempotent key : pascalCase (pascalCase key) = pascalCase key.
Proof.
  unfold pascalCase at 1.
  rewrite (split_without_separator "_" _ (pascalCase_drops_underscores key)).
  cbn [map join fold_right]. rewrite append_nil_r.
  unfold pascalCase. apply capitalize_join_capitalized.
Qed.

(** For a key of ASCII characters, on which [toUpperCase] is the upper case
    of the source, the length of the display name is the length of the key
    less its underscores (a key has one segment more than it has
    underscores): the generic rule drops the underscores and nothing else.
    (Outside ASCII the upper case of one character can be two.) *)
Theorem pascalCase_length key :
  Forall (fun n => n < 128) (codes key) ->
  String.length (pascalCase key) + List.length (split "_" key) = S (String.length key).
Proof.
  intros _.
  unfold pascalCase, join. induction key as [| c key IH]; [reflexivity | ].
  cbn [split]. destruct (Ascii.eqb c "_").
  - cbn [map fold_right capitalize List.length String.length append] in *. lia.
  - pose proof (split_is_never_empty "_" key) as Hne.
    destruct (split "_" key) as [| seg segs]; [congruence | ].
    cbn [map fold_right List.length] in *.
    rewrite length_append in IH. rewrite length_append.
    destruct seg; cbn [capitalize String.length] in *; lia.
Qed.

Lemma pascalCase_length_witness :
  String.length (pascalCase "select_all") + List.length (split "_" "select_all")
  = S (String.length "select_all").
Proof.
  apply (pascalCase_length "select_all"). vm_compute.
  repeat (apply Forall_cons; [lia | ]). apply Forall_nil.
Defined.

(** ** Compact mode writes no line break *)

Lemma noBreak_append s t : noBreak (s ++ t) = noBreak s && noBreak t.
Proof.
  unfold noBreak. rewrite codes_append, existsb_app, negb_orb. reflexivity.
Qed.

Lemma noBreak_join l : Forall isLine l -> noBreak (join l) = true.
Proof.
  induction 1 as [| s l Hs Hl IH]; [reflexivity | ].
  cbn [join fold_right]. rewrite noBreak_append. fold (join l). rewrite Hs, IH. reflexivity.
Qed.

Lemma noBreak_uint d : noBreak (NilEmpty.string_of_uint d) = true.
Proof.
  induction d; [reflexivity | .. ];
    cbn [NilEmpty.string_of_uint];
    match goal with
    | |- noBreak (String ?c ?r) = true =>
        change (String c r) with (String c "" ++ r); rewrite noBreak_append, IHd; reflexivity
    end.
Qed.

Lemma noBreak_String_index i : noBreak (String_index i) = true.
Proof.
  unfold String_index, NilZero.string_of_uint.
  destruct (Nat.to_uint i); try reflexivity; apply noBreak_uint.
Qed.

Lemma noBreak_String_number n : noBreak (String_number n) = true.
Proof.
  unfold String_number, NilZero.string_of_int, NilZero.string_of_uint.
  destruct (Z.to_int n) as [d | d].
  - destruct d; try reflexivity; apply noBreak_uint.
  - change (noBreak (String "-" "" ++ match d with
                                       | Decimal.Nil => "0"
                                       | _ => NilEmpty.string_of_uint d
                                       end) = true).
    rewrite noBreak_append. destruct d; try reflexivity; rewrite noBreak_uint; reflexivity.
Qed.

Lemma noBreak_JSON_stringify s : noBreak (JSON_stringify s) = true.
Proof.
  unfold noBreak. apply negb_true_iff. apply not_true_is_false. intros H.
  apply existsb_exists in H. destruct H as (n & Hin & Hn).
  apply Nat.eqb_eq in Hn. subst n.
  pose proof (JSON_stringify_codes_from_32 s) as Hall.
  rewrite Forall_forall in Hall. apply Hall in Hin. lia.
Qed.

Lemma toUpperCase_line_feed c :
  Nat.eqb 10 (nat_of_ascii (toUpperCase c)) = Nat.eqb 10 (nat_of_ascii c).
Proof. destruct c as [[|] [|] [|] [|] [|] [|] [|] [|]]; reflexivity. Qed.

Lemma noBreak_cons c s :
  noBreak (String c s) = negb (Nat.eqb 10 (nat_of_ascii c)) && noBreak s.
Proof. unfold noBreak, codes. cbn [list_ascii_of_string map existsb]. apply negb_orb. Qed.

Lemma noBreak_capitalize s : noBreak (capitalize s) = noBreak s.
Proof.
  destruct s as [| c s]; [reflexivity | ].
  cbn [capitalize]. rewrite !noBreak_cons, toUpperCase_line_feed. reflexivity.
Qed.

Lemma noBreak_split sep s : noBreak s = true -> Forall isLine (split sep s).
Proof.
  induction s as [| c s IH]; intros H.
  - repeat constructor.
  - rewrite noBreak_cons in H. apply andb_true_iff in H. destruct H as [Hc Hs].
    specialize (IH Hs). cbn [split]. destruct (Ascii.eqb c sep).
    + constructor; [reflexivity | exact IH].
    + destruct (split sep s) as [| seg segs].
      * repeat constructor. unfold isLine. rewrite noBreak_cons, Hc. reflexivity.
      * inversion IH; subst. constructor; [ | assumption ].
        unfold isLine in *. rewrite noBreak_cons, Hc. assumption.
Qed.

Lemma noBreak_pascalCase key : noBreak key = true -> noBreak (pascalCase key) = true.
Proof.
  intros H. unfold pascalCase. apply noBreak_join.
  pose proof (noBreak_split "_" key H) as Hs.
  induction Hs as [| seg segs Hseg Hsegs IH]; constructor; [ | exact IH ].
  unfold isLine in *. rewrite noBreak_capitalize. exact Hseg.
Qed.

(** The display name of a key without line feed has none. *)
Lemma noBreak_resolve key : noBreak key = true -> noBreak (String_fn (resolve key)) = true.
Proof.
  intros H. unfold resolve, specialCases, lookupTable.
  repeat match goal with
         | |- context [if String.eqb key ?k then _ else _] =>
             destruct (String.eqb key k); [reflexivity | ]
         end.
  destruct (existsb (String.eqb key) objectPrototype).
  - cbn [String_fn]. destruct (String.eqb key "__proto__"); [reflexivity | ].
    rewrite !noBreak_append. destruct (String.eqb key "constructor"); [reflexivity | ].
    rewrite H. reflexivity.
  - cbn [String_fn]. apply noBreak_pascalCase. exact H.
Qed.

Lemma cleanTree_ownProps v k x :
  cleanTree v = true -> In (k, x) (ownProps v) -> noBreak k = true /\ cleanTree x = true.
Proof.
  assert (Hidx : forall l i, In (k, x) (indexed i l) -> noBreak k = true /\ In x l).
  { induction l as [| y l IH]; intros i; simpl; [contradiction | ].
    intros [H | H].
    - inversion H; subst. split; [apply noBreak_String_index | left; reflexivity].
    - destruct (IH _ H) as [Hk Hx]. split; [exact Hk | right; exact Hx]. }
  destruct v; simpl; try contradiction.
  - intros _ H. apply Hidx in H. destruct H as [Hk Hx]. split; [exact Hk | ].
    apply chars_In in Hx. destruct Hx as [c ->]. reflexivity.
  - intros Hc H. apply Hidx in H. destruct H as [Hk Hx]. split; [exact Hk | ].
    rewrite forallb_forall in Hc. apply Hc. exact Hx.
  - intros Hc H. rewrite forallb_forall in Hc. specialize (Hc _ H).
    apply andb_true_iff in Hc. exact Hc.
  - intros Hc [H | []]. inversion H; subst. split; [reflexivity | exact Hc].
  - intros Hc [H | []]. inversion H; subst.
    apply andb_true_iff in Hc. destruct Hc as [_ Hc]. split; [reflexivity | exact Hc].
Qed.

Lemma oneLine_ret {A} (P : A -> Prop) (a : A) : P a -> oneLine P (ret a).
Proof. intros H st a' st' Hc E. inversion E; subst. split; assumption. Qed.

Lemma oneLine_bind {A B} (P : A -> Prop) (Q : B -> Prop) (m : M A) (f : A -> M B) :
  oneLine P m -> (forall a, P a -> oneLine Q (f a)) -> oneLine Q (bind m f).
Proof.
  intros Hm Hf st b st2 Hc E.
  apply bind_Ok_inv in E. destruct E as (a & st1 & E1 & E2).
  destruct (Hm _ _ _ Hc E1) as [Ha Hc1]. exact (Hf a Ha _ _ _ Hc1 E2).
Qed.

Lemma oneLine_getCompact : oneLine (fun c => c = true) getCompact.
Proof. intros st a st' Hc E. inversion E; subst. split; assumption. Qed.

Lemma oneLine_getKeyPath : oneLine anyValue getKeyPath.
Proof. intros st a st' Hc E. inversion E; subst. split; [exact I | assumption]. Qed.

Lemma oneLine_push k : oneLine anyValue (push k).
Proof. intros st a st' Hc E. inversion E; subst. split; [exact I | assumption]. Qed.

Lemma oneLine_pop : oneLine anyValue pop.
Proof. intros st a st' Hc E. inversion E; subst. split; [exact I | assumption]. Qed.

Lemma oneLine_enter : oneLine anyValue enter.
Proof. intros st a st' Hc E. inversion E; subst. split; [exact I | assumption]. Qed.

Lemma oneLine_leave : oneLine anyValue leave.
Proof. intros st a st' Hc E. inversion E; subst. split; [exact I | assumption]. Qed.

Lemma oneLine_setCompact_true : oneLine anyValue (setCompact true).
Proof. intros st a st' Hc E. inversion E; subst. split; [exact I | reflexivity]. Qed.

Lemma oneLine_indent input : noBreak input = true -> oneLine isLine (indent input).
Proof.
  intros H st a st' Hc E. unfold indent in E. rewrite Hc in E. inversion E; subst.
  split; assumption.
Qed.

Lemma oneLine_eol input : noBreak input = true -> oneLine isLine (eol input).
Proof.
  intros H st a st' Hc E. unfold eol in E. rewrite Hc in E. inversion E; subst.
  split; [ | assumption ]. unfold isLine, eolText. rewrite noBreak_append, H. reflexivity.
Qed.

Lemma oneLine_comma i length : oneLine isLine (comma i length).
Proof.
  intros st a st' Hc E. unfold comma in E. rewrite Hc in E. inversion E; subst.
  split; [ | assumption ]. unfold isLine, commaText. cbn [andb].
  destruct (i =? length - 1)%nat; reflexivity.
Qed.

Lemma oneLine_any {A} (P : A -> Prop) (m : M A) : oneLine P m -> oneLine anyValue m.
Proof. intros H st a st' Hc E. destruct (H _ _ _ Hc E). split; [exact I | assumption]. Qed.

Lemma oneLine_mapM {A} (f : A -> nat -> M string) (l : list A) :
  (forall x i, In x l -> oneLine isLine (f x i)) ->
  forall i, oneLine (Forall isLine) (mapM f i l).
Proof.
  induction l as [| x rest IH]; intros Hf i; simpl.
  - apply oneLine_ret. constructor.
  - apply (oneLine_bind isLine); [apply Hf; left; reflexivity | intros y Hy].
    apply (oneLine_bind (Forall isLine)).
    + apply IH. intros x' i' Hin. apply Hf. right. exact Hin.
    + intros ys Hys. apply oneLine_ret. constructor; assumption.
Qed.

Lemma oneLine_indentBlock {A} (P : A -> Prop) (m : M A) :
  oneLine P m -> oneLine P (indentBlock m).
Proof.
  intros H. unfold indentBlock.
  apply (oneLine_bind anyValue); [apply oneLine_enter | intros _ _].
  apply (oneLine_bind P); [exact H | intros a Ha].
  apply (oneLine_bind anyValue); [apply oneLine_leave | intros _ _].
  apply oneLine_ret. exact Ha.
Qed.

Section ClosuresOneLine.
Variable map_ : string -> list pathKey -> string.
Variable recur : value -> M string.
Hypothesis hook_keeps_line : forall text path, noBreak text = true -> noBreak (map_ text path) = true.

Lemma oneLine_entry (m : M string) (k : pathKey) (label : string) i length :
  noBreak label = true ->
  oneLine isLine m ->
  oneLine isLine
    (push k ;; str <- m ;; path <- getKeyPath ;; pop ;;
     ind <- indent (label ++ map_ str path) ;; sep <- comma i length ;; ret (ind ++ sep)).
Proof.
  intros Hlabel Hm.
  apply (oneLine_bind anyValue); [apply oneLine_push | intros _ _].
  apply (oneLine_bind isLine); [exact Hm | intros str Hstr].
  apply (oneLine_bind anyValue); [apply oneLine_getKeyPath | intros path _].
  apply (oneLine_bind anyValue); [apply oneLine_pop | intros _ _].
  apply (oneLine_bind isLine).
  - apply oneLine_indent. rewrite noBreak_append, Hlabel. apply hook_keeps_line. exact Hstr.
  - intros ind Hind. apply (oneLine_bind isLine); [apply oneLine_comma | intros sep Hsep].
    apply oneLine_ret. unfold isLine in *. rewrite noBreak_append, Hind, Hsep. reflexivity.
Qed.

Lemma oneLine_printItem toStr length v i :
  oneLine isLine (toStr v) -> oneLine isLine (printItem map_ toStr length v i).
Proof.
  intros H. exact (oneLine_entry (toStr v) (KIdx i) "" i length eq_refl H).
Qed.

Lemma oneLine_block (open close : string) (items : M (list string)) :
  noBreak open = true -> noBreak close = true ->
  oneLine (Forall isLine) items ->
  oneLine isLine
    (o <- eol open ;; body <- indentBlock (l <- items ;; ret (join l)) ;;
     c <- indent close ;; ret (o ++ body ++ c)).
Proof.
  intros Hopen Hclose Hitems.
  apply (oneLine_bind isLine); [apply oneLine_eol; exact Hopen | intros o Ho].
  apply (oneLine_bind isLine).
  - apply oneLine_indentBlock. apply (oneLine_bind (Forall isLine)); [exact Hitems | ].
    intros l Hl. apply oneLine_ret. apply noBreak_join. exact Hl.
  - intros body Hbody. apply (oneLine_bind isLine); [apply oneLine_indent; exact Hclose | ].
    intros c Hc. apply oneLine_ret. unfold isLine in *.
    rewrite !noBreak_append, Ho, Hbody, Hc. reflexivity.
Qed.

Lemma oneLine_printArray array toStr :
  (forall v, In v array -> oneLine isLine (toStr v)) ->
  oneLine isLine (printArray map_ array toStr).
Proof.
  intros H. unfold printArray.
  destruct array as [| v0 rest]; [apply oneLine_ret; reflexivity | ].
  apply (oneLine_block "[" "]"); try reflexivity.
  apply oneLine_mapM. intros x i Hin. apply oneLine_printItem. apply H. exact Hin.
Qed.

Lemma oneLine_printField obj length key i :
  noBreak key = true ->
  oneLine isLine (recur (getProp obj key)) ->
  oneLine isLine (printField map_ recur obj length key i).
Proof.
  intros Hkey H. unfold printField.
  apply (oneLine_bind anyValue); [apply oneLine_push | intros _ _].
  apply (oneLine_bind isLine); [exact H | intros str Hstr].
  apply (oneLine_bind anyValue); [apply oneLine_getKeyPath | intros path _].
  apply (oneLine_bind anyValue); [apply oneLine_pop | intros _ _].
  apply (oneLine_bind (fun c => c = true)); [apply oneLine_getCompact | intros c ->].
  apply (oneLine_bind isLine).
  - apply oneLine_indent. rewrite !noBreak_append, Hkey. cbn [andb].
    apply hook_keeps_line. exact Hstr.
  - intros ind Hind. apply (oneLine_bind isLine); [apply oneLine_comma | intros sep Hsep].
    apply oneLine_ret. unfold isLine in *. rewrite noBreak_append, Hind, Hsep. reflexivity.
Qed.

Lemma oneLine_printObject obj :
  (forall key, In key (map fst (ownProps obj)) ->
     noBreak key = true /\ oneLine isLine (recur (getProp obj key))) ->
  oneLine isLine (printObject map_ recur obj).
Proof.
  intros H. unfold printObject, Object_keys.
  destruct (isNullish obj); [intros st a st' _ E; discriminate E | ].
  destruct (map fst (ownProps obj)) as [| k0 rest] eqn:E; [apply oneLine_ret; reflexivity | ].
  apply (oneLine_block "{" "}"); try reflexivity.
  apply oneLine_mapM. intros x i Hin. destruct (H x Hin) as [Hk Hr].
  apply oneLine_printField; assumption.
Qed.
End ClosuresOneLine.

Section BodyOneLine.
Variable map_ : string -> list pathKey -> string.
Variable recur : value -> M string.
Hypothesis hook_keeps_line : forall text path, noBreak text = true -> noBreak (map_ text path) = true.
Hypothesis recur_line : forall v, cleanTree v = true -> oneLine isLine (recur v).

Lemma oneLine_record obj : cleanTree obj = true -> oneLine isLine (printObject map_ recur obj).
Proof.
  intros Hc. apply oneLine_printObject; [exact hook_keeps_line | ].
  intros key Hin. apply getProp_In in Hin.
  destruct (cleanTree_ownProps _ _ _ Hc Hin) as [Hk Hx].
  split; [exact Hk | apply recur_line; exact Hx].
Qed.

Lemma oneLine_printPayload fn key arg :
  cleanTree arg = true -> oneLine isLine (printPayload map_ recur fn key arg).
Proof.
  intros Hc. unfold printPayload. destruct (fnIs fn "Let" && String.eqb key "let").
  - destruct arg; try (apply oneLine_record; exact Hc).
    apply oneLine_printArray; [exact hook_keeps_line | ].
    intros v Hin. apply oneLine_record.
    simpl in Hc. rewrite forallb_forall in Hc. apply Hc. exact Hin.
  - apply recur_line. exact Hc.
Qed.

Lemma oneLine_printArg expr fn length key i :
  cleanTree (getProp expr key) = true ->
  oneLine isLine (printArg map_ recur expr fn length key i).
Proof.
  intros Hc. unfold printArg.
  exact (oneLine_entry map_ hook_keeps_line
           (printPayload map_ recur fn key (getProp expr key)) (KStr key) "" i length
           eq_refl (oneLine_printPayload fn key _ Hc)).
Qed.

Lemma oneLine_printSequence items :
  forallb cleanTree items = true -> oneLine isLine (printSequence map_ recur items).
Proof.
  intros Hc. unfold printSequence.
  apply (oneLine_bind (fun c => c = true)); [apply oneLine_getCompact | intros was ->].
  cbn [negb].
  apply (oneLine_bind anyValue); [apply oneLine_ret; exact I | intros _ _].
  apply (oneLine_bind isLine).
  - apply oneLine_printArray; [exact hook_keeps_line | ].
    intros v Hin. apply recur_line. rewrite forallb_forall in Hc. apply Hc. exact Hin.
  - intros out Hout. apply (oneLine_bind anyValue); [apply oneLine_setCompact_true | intros _ _].
    apply oneLine_ret. exact Hout.
Qed.

Lemma Forall_rev_line l : Forall isLine l -> Forall isLine (rev l).
Proof.
  intros H. apply Forall_forall. intros x Hin. apply in_rev in Hin.
  rewrite Forall_forall in H. apply H. exact Hin.
Qed.

Lemma oneLine_printCall optCompact expr :
  cleanTree expr = true -> oneLine isLine (printCall map_ recur optCompact expr).
Proof.
  intros Hc. unfold printCall.
  destruct (map fst (ownProps expr)) as [| key0 keys'] eqn:Ekeys;
    [intros st a st' _ E; discriminate E | ].
  assert (Hkeys : forall key, In key (key0 :: keys') ->
                    noBreak key = true /\ cleanTree (getProp expr key) = true).
  { intros key Hin. rewrite <- Ekeys in Hin. apply getProp_In in Hin.
    exact (cleanTree_ownProps _ _ _ Hc Hin). }
  apply (oneLine_bind (fun c => c = true)); [apply oneLine_getCompact | intros was ->].
  cbn [negb].
  apply (oneLine_bind anyValue); [apply oneLine_ret; exact I | intros _ _].
  apply (oneLine_bind (Forall isLine)).
  - apply oneLine_indentBlock. apply oneLine_mapM. intros key i Hin.
    apply oneLine_printArg. apply Hkeys. exact Hin.
  - intros args Hargs.
    apply (oneLine_bind isLine).
    + apply oneLine_eol. rewrite noBreak_append. rewrite noBreak_resolve; [reflexivity | ].
      apply Hkeys. left. reflexivity.
    + intros open Hopen.
      apply (oneLine_bind isLine); [apply oneLine_indent; reflexivity | intros close Hclose].
      apply (oneLine_bind anyValue); [apply oneLine_setCompact_true | intros _ _].
      apply oneLine_ret. unfold isLine in *.
      rewrite !noBreak_append, Hopen, Hclose, andb_true_r. cbn [andb].
      apply noBreak_join. destruct (shouldReverseArgs (resolve key0));
        [apply Forall_rev_line | ]; exact Hargs.
Qed.
End BodyOneLine.

Lemma cleanTree_getProp v key : cleanTree v = true -> cleanTree (getProp v key) = true.
Proof.
  intros Hc. unfold getProp. destruct (assoc key (ownProps v)) as [x | ] eqn:E; [ | reflexivity ].
  apply assoc_In in E. exact (proj2 (cleanTree_ownProps _ _ _ Hc E)).
Qed.

Lemma oneLine_printBody self expr options :
  (forall text path, noBreak text = true ->
     noBreak (mapOf (normalize options) text path) = true) ->
  (forall v, cleanTree v = true -> oneLine isLine (self v (OptObj (normalize options)))) ->
  cleanTree expr = true ->
  oneLine isLine (printBody self expr options).
Proof.
  intros Hhook Hself Hc.
  assert (Hobj : oneLine isLine
            (if hasProp "object" expr
             then printObject (mapOf (normalize options))
                    (fun item => self item (OptObj (normalize options)))
                    (getProp expr "object")
             else printCall (mapOf (normalize options))
                    (fun item => self item (OptObj (normalize options)))
                    (opt_compact (normalize options)) expr)).
  { destruct (hasProp "object" expr).
    - apply oneLine_record; try assumption. apply cleanTree_getProp. exact Hc.
    - apply oneLine_printCall; assumption. }
  destruct expr as [ | | b | n | s | d | items | props | r | x shown ];
    cbn [printBody]; try exact Hobj;
    try (apply oneLine_ret; reflexivity).
  - apply oneLine_ret. destruct b; reflexivity.
  - apply oneLine_ret. apply noBreak_String_number.
  - apply oneLine_ret. apply noBreak_JSON_stringify.
  - apply oneLine_ret. unfold isLine. rewrite !noBreak_append. simpl in Hc. rewrite Hc.
    reflexivity.
  - apply oneLine_printSequence; assumption.
Qed.

Lemma oneLine_exprToString fuel :
  forall expr options,
    (forall text path, noBreak text = true ->
       noBreak (mapOf (normalize options) text path) = true) ->
    cleanTree expr = true ->
    oneLine isLine (exprToString fuel expr options).
Proof.
  induction fuel as [| fuel IH]; intros expr options Hhook Hc.
  - intros st a st' _ E. discriminate E.
  - assert (Hself : forall v, cleanTree v = true ->
                      oneLine isLine (exprToString fuel v (OptObj (normalize options)))).
    { intros v Hv. apply IH; [exact Hhook | exact Hv]. }
    destruct expr; cbn [exprToString];
      try (apply oneLine_printBody; assumption).
    apply oneLine_ret. simpl in Hc. apply andb_true_iff in Hc. apply Hc.
Qed.

(** In compact mode the whole text is one line: when no key, no symbol
    description and no text of an opaque value in the tree holds a line
    feed, and the hook adds none, the output holds none.  (Strings may hold
    any character: they are printed escaped.) *)
Theorem compact_text_is_one_line fuel expr options st text st' :
  compact st = true ->
  cleanTree expr = true ->
  (forall t path, noBreak t = true -> noBreak (mapOf (normalize options) t path) = true) ->
  exprToString fuel expr options st = Ok text st' ->
  noBreak text = true.
Proof.
  intros Hc Hclean Hhook E.
  exact (proj1 (oneLine_exprToString fuel expr options Hhook Hclean st text st' Hc E)).
Qed.

Lemma compact_text_is_one_line_witness :
  exprToString 4
    (VArr [VExpr (VObj [("object", VObj [("a", VExpr (VArr [VNum 1; VNum 2]))])]);
           VValue VNull "T"])
    OptNone (mkState [] true 0) = Ok "[{a:[1,2]},T]" (mkState [] true 0)
  /\ noBreak "[{a:[1,2]},T]" = true.
Proof.
  split; [reflexivity | ].
  apply (compact_text_is_one_line 4
           (VArr [VExpr (VObj [("object", VObj [("a", VExpr (VArr [VNum 1; VNum 2]))])]);
                  VValue VNull "T"])
           OptNone (mkState [] true 0) "[{a:[1,2]},T]" (mkState [] true 0));
    try reflexivity.
  intros t path H. exact H.
Defined.

Lemma printCall_forced_text map_ recur expr st text st' :
  compact st = false ->
  printCall map_ recur true expr st = Ok text st' ->
  exists st'',
    printCall map_ recur true expr (mkState (keyPath st) true (printDepth st)) = Ok text st''.
Proof.
  destruct st as [kp c d]. cbn [keyPath compact printDepth]. intros -> H.
  unfold printCall in *.
  destruct (map fst (ownProps expr)) as [| key0 keys']; [discriminate H | ].
  unfold bind at 1 in H. cbn [getCompact compact negb] in H.
  unfold bind at 1 in H. cbn [setCompact keyPath compact printDepth orb] in H.
  unfold bind at 1. cbn [getCompact compact negb].
  unfold bind at 1. cbn [ret].
  apply bind_Ok_inv in H. destruct H as (args & s1 & E1 & H).
  rewrite (bind_Ok _ _ _ _ _ E1).
  apply bind_Ok_inv in H. destruct H as (open & s2 & E2 & H).
  rewrite (bind_Ok _ _ _ _ _ E2).
  apply bind_Ok_inv in H. destruct H as (close & s3 & E3 & H).
  rewrite (bind_Ok _ _ _ _ _ E3).
  unfold bind in *. cbn [setCompact ret] in *. inversion H; subst.
  eexists. reflexivity.
Qed.

(** The option [compact] on a call at the root: the whole output is one
    line, whatever the tree below the call, under the same conditions on
    keys, symbol descriptions, opaque texts and hook. *)
Theorem compact_option_makes_a_call_one_line fuel options props st text st' :
  opt_compact (normalize options) = true ->
  hasProp "object" (VObj props) = false ->
  cleanTree (VObj props) = true ->
  (forall t path, noBreak t = true -> noBreak (mapOf (normalize options) t path) = true) ->
  exprToString (S fuel) (VObj props) options st = Ok text st' ->
  noBreak text = true.
Proof.
  intros Hopt Hobj Hclean Hhook E.
  destruct (compact st) eqn:Hc.
  - exact (proj1 (oneLine_exprToString (S fuel) (VObj props) options Hhook Hclean
                    st text st' Hc E)).
  - rewrite (exprToString_call _ _ _ Hobj), Hopt in E.
    destruct (printCall_forced_text _ _ _ _ _ _ Hc E) as [st'' E'].
    assert (Hline : oneLine isLine
              (printCall (mapOf (normalize options))
                 (fun item => exprToString fuel item (OptObj (normalize options)))
                 true (VObj props))).
    { apply oneLine_printCall; [exact Hhook | | exact Hclean].
      intros v Hv. apply oneLine_exprToString; [exact Hhook | exact Hv]. }
    exact (proj1 (Hline (mkState (keyPath st) true (printDepth st)) text st'' eq_refl E')).
Qed.

Lemma compact_option_makes_a_call_one_line_witness :
  exprToString 5
    (VObj [("foo", VExpr (VArr [VExpr (VArr [])]));
           ("x", VExpr (VObj [("object", VObj [("a", VExpr (VObj [("bar", VNum 1)]))])]))])
    OptTrue initial = Ok "Foo([[]],{a:Bar(1)})" initial
  /\ noBreak "Foo([[]],{a:Bar(1)})" = true.
Proof.
  split; [reflexivity | ].
  apply (compact_option_makes_a_call_one_line 4 OptTrue
           [("foo", VExpr (VArr [VExpr (VArr [])]));
            ("x", VExpr (VObj [("object", VObj [("a", VExpr (VObj [("bar", VNum 1)]))])]))]
           initial "Foo([[]],{a:Bar(1)})" initial);
    try reflexivity.
  intros t path H. exact H.
Defined.

(** ** A [TypeError] is not cleaned up after *)

Lemma ahead_refl st : ahead st st.
Proof. split; [exists []; rewrite app_nil_r; reflexivity | lia]. Qed.

Lemma bind_Throw_inv {A B} (m : M A) (f : A -> M B) st st' :
  bind m f st = Throw st' ->
  m st = Throw st' \/ exists a st1, m st = Ok a st1 /\ f a st1 = Throw st'.
Proof.
  unfold bind. destruct (m st) as [a st1 | st1 | ]; try discriminate.
  - intros H. right. exists a, st1. split; [reflexivity | exact H].
  - intros H. left. inversion H. reflexivity.
Qed.

(** A raise between [keyPath.push(k)] and [keyPath.pop()] leaves [k] on
    the path. *)
Lemma keyed_Throw {A B} (k : pathKey) (m : M A) (rest : A -> list pathKey -> M B) st st' :
  restores m ->
  (forall x path s s', rest x path s <> Throw s') ->
  (push k ;; x <- m ;; path <- getKeyPath ;; pop ;; rest x path) st = Throw st' ->
  m (mkState (keyPath st ++ [k]) (compact st) (printDepth st)) = Throw st'.
Proof.
  intros Hr Hrest H. unfold bind at 1 in H. cbn [push] in H.
  apply bind_Throw_inv in H. destruct H as [H | (x & s1 & H1 & H2)]; [exact H | ].
  exfalso. unfold bind at 1 2 in H2. cbn [getKeyPath pop] in H2.
  exact (Hrest _ _ _ _ H2).
Qed.

Lemma entry_never_raises (text : string) i length s s' :
  (ind <- indent text ;; sep <- comma i length ;; ret (ind ++ sep)) s <> Throw s'.
Proof. discriminate. Qed.

(** A raise between [printDepth += 1] and [printDepth -= 1] leaves the
    depth raised. *)
Lemma indentBlock_Throw {A} (m : M A) st st' :
  indentBlock m st = Throw st' ->
  m (mkState (keyPath st) (compact st) (printDepth st + 1)) = Throw st'.
Proof.
  intros H. unfold indentBlock in H. unfold bind at 1 in H. cbn [enter] in H.
  apply bind_Throw_inv in H. destruct H as [H | (x & s1 & H1 & H2)]; [exact H | ].
  discriminate H2.
Qed.

Lemma mapM_Throw {A B} (f : A -> nat -> M B) (l : list A) :
  (forall x i, restores (f x i)) ->
  forall i st st', mapM f i l st = Throw st' ->
    exists x j, In x l /\ f x j st = Throw st'.
Proof.
  intros Hr. induction l as [| x rest IH]; intros i st st' H; [discriminate H | ].
  cbn [mapM] in H. apply bind_Throw_inv in H.
  destruct H as [H | (y & s1 & H1 & H2)].
  - exists x, i. split; [left; reflexivity | exact H].
  - apply Hr in H1. subst s1. apply bind_Throw_inv in H2.
    destruct H2 as [H2 | (ys & s2 & _ & H3)]; [ | discriminate H3 ].
    destruct (IH _ _ _ H2) as (x' & j & Hin & Hx). exists x', j. split; [right | ]; assumption.
Qed.

Section ClosuresRaise.
Variable map_ : string -> list pathKey -> string.
Variable recur : value -> M string.
Hypothesis recur_restores : forall v, restores (recur v).

Lemma printItem_Throw toStr length v i st st' :
  restores (toStr v) ->
  printItem map_ toStr length v i st = Throw st' ->
  toStr v (mkState (keyPath st ++ [KIdx i]) (compact st) (printDepth st)) = Throw st'.
Proof.
  intros Hr H. unfold printItem in H.
  apply (keyed_Throw (KIdx i) (toStr v)
           (fun str path => ind <- indent (map_ str path) ;; sep <- comma i length ;;
                            ret (ind ++ sep)) st st' Hr); [ | exact H ].
  intros x path s s'. apply entry_never_raises.
Qed.

Lemma printArray_Throw array toStr st st' :
  (forall v, restores (toStr v)) ->
  printArray map_ array toStr st = Throw st' ->
  exists v i, In v array
    /\ toStr v (mkState (keyPath st ++ [KIdx i]) (compact st) (printDepth st + 1)) = Throw st'.
Proof.
  intros Hr H. unfold printArray in H. destruct array as [| v0 rest]; [discriminate H | ].
  unfold bind at 1 in H. cbn [eol] in H.
  apply bind_Throw_inv in H. destruct H as [H | (body & s1 & _ & H)]; [ | discriminate H ].
  apply indentBlock_Throw in H.
  apply bind_Throw_inv in H. destruct H as [H | (items & s1 & _ & H)]; [ | discriminate H ].
  apply mapM_Throw in H; [ | intros x i; apply restores_printItem; apply Hr ].
  destruct H as (v & i & Hin & H). apply printItem_Throw in H; [ | apply Hr ].
  exists v, i. split; assumption.
Qed.

Lemma printField_Throw obj length key i st st' :
  printField map_ recur obj length key i st = Throw st' ->
  recur (getProp obj key) (mkState (keyPath st ++ [KStr key]) (compact st) (printDepth st))
  = Throw st'.
Proof.
  intros H. unfold printField in H.
  apply (keyed_Throw (KStr key) (recur (getProp obj key))
           (fun str path =>
              c <- getCompact ;;
              ind <- indent (key ++ ":" ++ (if c then "" else " ") ++ map_ str path) ;;
              sep <- comma i length ;; ret (ind ++ sep)) st st' (recur_restores _));
    [ | exact H ].
  intros x path s s'. discriminate.
Qed.

Lemma printObject_Throw obj st st' :
  printObject map_ recur obj st = Throw st' ->
  (isNullish obj = true /\ st' = st)
  \/ exists key, In key (map fst (ownProps obj))
       /\ recur (getProp obj key)
            (mkState (keyPath st ++ [KStr key]) (compact st) (printDepth st + 1)) = Throw st'.
Proof.
  intros H. unfold printObject, Object_keys in H. destruct (isNullish obj).
  - left. inversion H. split; reflexivity.
  - right. destruct (map fst (ownProps obj)) as [| k0 rest]; [discriminate H | ].
    unfold bind at 1 in H. cbn [eol] in H.
    apply bind_Throw_inv in H. destruct H as [H | (body & s1 & _ & H)]; [ | discriminate H ].
    apply indentBlock_Throw in H.
    apply bind_Throw_inv in H. destruct H as [H | (items & s1 & _ & H)]; [ | discriminate H ].
    apply mapM_Throw in H; [ | intros x i; apply restores_printField; exact recur_restores ].
    destruct H as (key & i & Hin & H). apply printField_Throw in H.
    exists key. split; assumption.
Qed.

Hypothesis recur_ahead : forall v, raisesAhead (recur v).

Lemma ahead_of_child st k st' :
  ahead (mkState (keyPath st ++ [k]) (compact st) (printDepth st + 1)) st' ->
  (exists pushed, keyPath st' = (keyPath st ++ k :: pushed)%list)
  /\ printDepth st < printDepth st'.
Proof.
  intros [[p Hp] Hd]. cbn [keyPath printDepth] in *. split; [ | lia ].
  exists p. rewrite Hp, <- app_assoc. reflexivity.
Qed.

Lemma ahead_of_child_weak st k st' :
  ahead (mkState (keyPath st ++ [k]) (compact st) (printDepth st + 1)) st' -> ahead st st'.
Proof.
  intros H. destruct (ahead_of_child _ _ _ H) as [[p Hp] Hd]. split; [ | lia ].
  exists (k :: p). exact Hp.
Qed.

Lemma raisesAhead_printObject obj : raisesAhead (printObject map_ recur obj).
Proof.
  intros st st' H. apply printObject_Throw in H.
  destruct H as [[_ ->] | (key & _ & H)]; [apply ahead_refl | ].
  apply recur_ahead in H. exact (ahead_of_child_weak _ _ _ H).
Qed.

Lemma raisesAhead_printPayload fn key arg : raisesAhead (printPayload map_ recur fn key arg).
Proof.
  unfold printPayload. destruct (fnIs fn "Let" && String.eqb key "let").
  - destruct arg; try apply raisesAhead_printObject.
    intros st st' H. apply printArray_Throw in H;
      [ | intros v; apply restores_printObject; exact recur_restores ].
    destruct H as (v & i & _ & H). apply raisesAhead_printObject in H.
    exact (ahead_of_child_weak _ _ _ H).
  - apply recur_ahead.
Qed.

Lemma printSequence_Throw items st st' :
  printSequence map_ recur items st = Throw st' ->
  exists i pushed,
    keyPath st' = (keyPath st ++ KIdx i :: pushed)%list /\ printDepth st < printDepth st'.
Proof.
  intros H. unfold printSequence in H.
  destruct st as [kp cf d]. cbn [keyPath compact printDepth] in *.
  unfold bind at 1 in H. cbn [getCompact compact] in H.
  assert (Hbody : forall c,
            (out <- printArray map_ items recur ;; setCompact cf ;; ret out)
              (mkState kp c d) = Throw st' ->
            exists i pushed,
              keyPath st' = (kp ++ KIdx i :: pushed)%list /\ d < printDepth st').
  { intros c Hc. apply bind_Throw_inv in Hc.
    destruct Hc as [Hc | (out & s1 & _ & Hc)]; [ | discriminate Hc ].
    apply printArray_Throw in Hc; [ | exact recur_restores ].
    destruct Hc as (v & i & _ & Hc). apply recur_ahead in Hc.
    cbn [keyPath compact printDepth] in Hc.
    destruct Hc as [[p Hp] Hd]. cbn [keyPath printDepth] in *.
    exists i, p. split; [rewrite Hp, <- app_assoc; reflexivity | lia]. }
  destruct cf; cbn [negb] in H; unfold bind at 1 in H;
    cbn [ret setCompact keyPath compact printDepth] in H; exact (Hbody _ H).
Qed.

Lemma printCall_Throw optCompact expr st st' :
  printCall map_ recur optCompact expr st = Throw st' ->
  (map fst (ownProps expr) = [] /\ st' = st)
  \/ exists key pushed,
       In key (map fst (ownProps expr))
       /\ keyPath st' = (keyPath st ++ KStr key :: pushed)%list
       /\ printDepth st < printDepth st'.
Proof.
  intros H. unfold printCall in H.
  destruct (map fst (ownProps expr)) as [| key0 keys'] eqn:Ekeys.
  - left. inversion H. split; reflexivity.
  - right. destruct st as [kp cf d]. cbn [keyPath compact printDepth] in *.
    unfold bind at 1 in H. cbn [getCompact compact] in H.
    set (fn := resolve key0) in *.
    assert (Hbody : forall c,
              (args <- indentBlock (mapM (printArg map_ recur expr fn
                                            (List.length (key0 :: keys'))) 0 (key0 :: keys')) ;;
               open <- eol (String_fn fn ++ "(") ;;
               close <- indent ")" ;;
               setCompact cf ;;
               ret (open ++ join (if shouldReverseArgs fn then rev args else args) ++ close))
                (mkState kp c d) = Throw st' ->
              exists key pushed,
                In key (key0 :: keys')
                /\ keyPath st' = (kp ++ KStr key :: pushed)%list
                /\ d < printDepth st').
    { intros c Hc. apply bind_Throw_inv in Hc.
      destruct Hc as [Hc | (args & s1 & _ & Hc)]; [ | discriminate Hc ].
      apply indentBlock_Throw in Hc.
      apply mapM_Throw in Hc; [ | intros x i; apply restores_printArg; exact recur_restores ].
      destruct Hc as (key & i & Hin & Hc). unfold printArg in Hc.
      apply (keyed_Throw (KStr key) _
               (fun str path => ind <- indent (map_ str path) ;; sep <- comma i _ ;;
                                ret (ind ++ sep))) in Hc;
        [ | apply restores_printPayload; exact recur_restores
          | intros x path s s'; apply entry_never_raises ].
      apply raisesAhead_printPayload in Hc.
      destruct Hc as [[p Hp] Hd]. cbn [keyPath printDepth] in *.
      exists key, p. split; [exact Hin | ].
      split; [rewrite Hp, <- app_assoc; reflexivity | lia]. }
    destruct cf; cbn [negb] in H; unfold bind at 1 in H;
      cbn [ret setCompact keyPath compact printDepth] in H; exact (Hbody _ H).
Qed.
End ClosuresRaise.

Lemma raisesAhead_printBody self expr options :
  (forall v o, restores (self v o)) ->
  (forall v o, raisesAhead (self v o)) ->
  raisesAhead (printBody self expr options).
Proof.
  intros Hr Ha.
  assert (Hobj : raisesAhead
            (if hasProp "object" expr
             then printObject (mapOf (normalize options))
                    (fun item => self item (OptObj (normalize options)))
                    (getProp expr "object")
             else printCall (mapOf (normalize options))
                    (fun item => self item (OptObj (normalize options)))
                    (opt_compact (normalize options)) expr)).
  { destruct (hasProp "object" expr).
    - apply raisesAhead_printObject; intros v; [apply Hr | apply Ha].
    - intros st st' H. apply printCall_Throw in H; try (intros v; first [apply Hr | apply Ha]).
      destruct H as [[_ ->] | (key & p & _ & Hp & Hd)]; [apply ahead_refl | ].
      split; [exists (KStr key :: p); exact Hp | lia]. }
  destruct expr; cbn [printBody];
    try (intros st st' H; discriminate H); try exact Hobj.
  intros st st' H. apply printSequence_Throw in H; try (intros v; first [apply Hr | apply Ha]).
  destruct H as (i & p & Hp & Hd). split; [exists (KIdx i :: p); exact Hp | lia].
Qed.

Lemma raisesAhead_exprToString fuel :
  forall expr options, raisesAhead (exprToString fuel expr options).
Proof.
  induction fuel as [| fuel IH]; intros expr options.
  - intros st st' H. discriminate H.
  - destruct expr; cbn [exprToString];
      try (intros st st' H; discriminate H);
      apply raisesAhead_printBody;
      first [ exact (restores_exprToString fuel) | exact IH ].
Qed.

(** A render that raises does not restore the state.  Whatever the tree,
    the state it leaves has the entry key path as a prefix and a depth not
    below the entry depth; when the tree is a sequence, or a call (a record
    without the key [object]), the raise comes from a child, and the state
    left has the key of that child still on the key path and a depth above
    the entry depth. *)
Theorem raise_is_not_cleaned_up fuel options st st' :
  (forall expr, exprToString fuel expr options st = Throw st' -> ahead st st')
  /\
  (forall items,
     exprToString (S fuel) (VArr items) options st = Throw st' ->
     exists i pushed,
       keyPath st' = (keyPath st ++ KIdx i :: pushed)%list /\ printDepth st < printDepth st')
  /\
  (forall props,
     hasProp "object" (VObj props) = false ->
     props <> [] ->
     exprToString (S fuel) (VObj props) options st = Throw st' ->
     exists key pushed,
       In key (map fst props)
       /\ keyPath st' = (keyPath st ++ KStr key :: pushed)%list
       /\ printDepth st < printDepth st').
Proof.
  split; [ | split ].
  - intros expr H. exact (raisesAhead_exprToString fuel expr options st st' H).
  - intros items H. rewrite exprToString_sequence in H.
    apply printSequence_Throw in H;
      [ exact H
      | intros v; apply restores_exprToString
      | intros v; apply raisesAhead_exprToString ].
  - intros props Hobj Hne H. rewrite (exprToString_call _ _ _ Hobj) in H.
    apply printCall_Throw in H;
      [ | intros v; apply restores_exprToString | intros v; apply raisesAhead_exprToString ].
    destruct H as [[Hk _] | H]; [ | exact H ].
    destruct props; [congruence | discriminate Hk].
Qed.

Lemma raise_is_not_cleaned_up_witness :
  exprToString 3 (VArr [VNum 1; VExpr (VObj [("foo", VExpr (VObj []))])]) OptNone initial
  = Throw (mkState [KIdx 1; KStr "foo"] false 2)
  /\ exists i pushed,
       [KIdx 1; KStr "foo"] = ([] ++ KIdx i :: pushed)%list /\ 0 < 2.
Proof.
  split; [reflexivity | ].
  destruct (raise_is_not_cleaned_up 2 OptNone initial (mkState [KIdx 1; KStr "foo"] false 2))
    as (_ & H & _).
  apply (H [VNum 1; VExpr (VObj [("foo", VExpr (VObj []))])]). reflexivity.
Defined.

(** * Properties of the HTTP client *)

(** ** Responses *)

(** [handleResponse] returns exactly for the status codes 200 to 299, and
    then returns the property [resource] of the response object; for every
    other code it throws an error made from the response object, of the
    class [FaunaHTTPError] unless the code is one of 400, 401, 403, 404,
    405, 500 and 503. *)
Theorem handleResponse_returns_exactly_on_2xx code response_object :
  (forall v, Client.handleResponse code response_object = Client.Returns v ->
     (200 <= code <= 299)%Z /\ v = getProp response_object "resource")
  /\
  ((200 <= code <= 299)%Z -> isNullish response_object = false ->
     Client.handleResponse code response_object
     = Client.Returns (getProp response_object "resource"))
  /\
  (~ (200 <= code <= 299)%Z ->
     exists cls,
       Client.handleResponse code response_object = Client.Raises cls response_object
       /\ (cls = Client.FaunaHTTPError <->
           ~ In code [400; 401; 403; 404; 405; 500; 503]%Z)).
Proof.
  unfold Client.handleResponse.
  destruct ((200 <=? code) && (code <=? 299))%Z eqn:E.
  - apply andb_true_iff in E. destruct E as [E1 E2].
    apply Z.leb_le in E1. apply Z.leb_le in E2.
    split; [ | split ].
    + intros v H. destruct (isNullish response_object); [discriminate H | ].
      inversion H. split; [lia | reflexivity].
    + intros _ Hnn. rewrite Hnn. reflexivity.
    + intros Hout. exfalso. apply Hout. lia.
  - assert (Hout : ~ (200 <= code <= 299)%Z).
    { intros [H1 H2]. apply Z.leb_le in H1. apply Z.leb_le in H2.
      rewrite H1, H2 in E. discriminate E. }
    split; [ | split ].
    + intros v H.
      repeat match type of H with
             | (if ?c then _ else _) = _ => destruct c; try discriminate H
             end.
    + intros Hin. contradiction.
    + intros _.
      repeat match goal with
             | |- context [if (code =? ?k)%Z then _ else _] =>
                 destruct (Z.eqb_spec code k);
                 [ eexists; split; [reflexivity | ];
                   split; [discriminate | intros Hn; exfalso; apply Hn; subst; simpl; tauto]
                 | ]
             end.
      eexists. split; [reflexivity | ]. split; [ | reflexivity ].
      intros _ Hin. simpl in Hin. intuition congruence.
Qed.

Lemma handleResponse_returns_exactly_on_2xx_witness :
  Client.handleResponse 201 (VObj [("resource", VNum 7)]) = Client.Returns (VNum 7)
  /\ exists cls,
       Client.handleResponse 418 VNull = Client.Raises cls VNull
       /\ (cls = Client.FaunaHTTPError <-> ~ In 418%Z [400; 401; 403; 404; 405; 500; 503]%Z).
Proof.
  destruct (handleResponse_returns_exactly_on_2xx 201 (VObj [("resource", VNum 7)]))
    as (_ & H & _).
  destruct (handleResponse_returns_exactly_on_2xx 418 VNull) as (_ & _ & H').
  split; [apply H; [lia | reflexivity] | apply H'; lia].
Defined.

(** ** Query parameters *)

Lemma filter_kept_In (object : list (string * value)) k v :
  In (k, v) (filter Client.kept object)
  <-> In (k, v) object /\ v <> VUndefined /\ k <> "__proto__".
Proof.
  rewrite filter_In. unfold Client.kept, Client.assigns. cbn [fst snd].
  rewrite andb_true_iff, !negb_true_iff.
  split.
  - intros (Hin & Hv & Hk). split; [exact Hin | ]. split.
    + intros ->. discriminate Hv.
    + intros ->. discriminate Hk.
  - intros (Hin & Hv & Hk). split; [exact Hin | ]. split.
    + destruct v; try reflexivity. congruence.
    + apply String.eqb_neq. exact Hk.
Qed.

Lemma filter_idem {A} (f : A -> bool) (l : list A) : filter f (filter f l) = filter f l.
Proof.
  induction l as [| x l IH]; [reflexivity | ].
  simpl. destruct (f x) eqn:E; [ | exact IH ]. simpl. rewrite E, IH. reflexivity.
Qed.

Lemma removeUndefinedValues_null_or_object object :
  Client.removeUndefinedValues object = VNull
  \/ exists res, Client.removeUndefinedValues object = VObj res.
Proof.
  unfold Client.removeUndefinedValues.
  destruct (filter Client.kept object) as [| kv res]; [left | right; eexists]; reflexivity.
Qed.

Lemma removeUndefinedValues_cases object :
  (Client.removeUndefinedValues object = VNull <->
     forall k v, In (k, v) object -> v = VUndefined \/ k = "__proto__")
  /\
  (forall res, Client.removeUndefinedValues object = VObj res ->
     res <> []
     /\ (forall k v, In (k, v) res <->
                     In (k, v) object /\ v <> VUndefined /\ k <> "__proto__")
     /\ Client.settable res = true
     /\ Client.removeUndefinedValues res = VObj res).
Proof.
  unfold Client.removeUndefinedValues.
  pose proof (filter_kept_In object) as Hin.
  destruct (filter Client.kept object) as [| kv res'] eqn:E.
  - split.
    + split; [ | reflexivity ]. intros _ k v H.
      destruct (String.eqb_spec k "__proto__") as [Hk | Hk]; [right; exact Hk | left].
      destruct v; try reflexivity;
        exfalso; refine (proj2 (Hin k _) _);
        (split; [exact H | split; [discriminate | exact Hk]]).
    + intros res H. discriminate H.
  - split.
    + split; [discriminate | ]. intros H. exfalso.
      destruct kv as [k v].
      destruct (proj1 (Hin k v) (or_introl eq_refl)) as (H1 & H2 & H3).
      destruct (H k v H1); contradiction.
    + intros res H. inversion H; subst res. clear H.
      split; [discriminate | ]. split; [exact Hin | ]. split.
      * unfold Client.settable. apply forallb_forall. intros [k v] Hkv.
        apply Hin in Hkv. destruct Hkv as (_ & _ & Hk).
        unfold Client.assigns. cbn [fst]. apply String.eqb_neq in Hk. rewrite Hk. reflexivity.
      * rewrite <- E. rewrite filter_idem, E. reflexivity.
Qed.

(** For an object of which no property [__proto__] holds an object,
    [removeUndefinedValues] gives [null] exactly when every property has
    the value [undefined] or the key [__proto__]; otherwise it gives an
    object whose properties are exactly the properties of the argument that
    have another value than [undefined] and another key than [__proto__],
    so at least one, and cleaning that object again changes nothing. *)
Theorem removeUndefinedValues_keeps_the_defined object :
  Client.settable object = true ->
  (Client.removeUndefinedValues object = VNull <->
     forall k v, In (k, v) object -> v = VUndefined \/ k = "__proto__")
  /\
  (forall res, Client.removeUndefinedValues object = VObj res ->
     res <> []
     /\ (forall k v, In (k, v) res <->
                     In (k, v) object /\ v <> VUndefined /\ k <> "__proto__")
     /\ Client.settable res = true
     /\ Client.removeUndefinedValues res = VObj res).
Proof.
  intros _. destruct (removeUndefinedValues_cases object) as [Hnull Hobj].
  split; [exact Hnull | ].
  intros res H. exact (Hobj res H).
Qed.

Lemma removeUndefinedValues_keeps_the_defined_witness :
  Client.removeUndefinedValues [("scope", VUndefined); ("timeout", VNum 5)]
  = VObj [("timeout", VNum 5)]
  /\ Client.removeUndefinedValues [("timeout", VNum 5)] = VObj [("timeout", VNum 5)]
  /\ Client.removeUndefinedValues [("__proto__", VNum 5)] = VNull.
Proof.
  split; [reflexivity | ]. split.
  - destruct (removeUndefinedValues_keeps_the_defined
                [("scope", VUndefined); ("timeout", VNum 5)] eq_refl) as [_ H].
    apply (H [("timeout", VNum 5)]). reflexivity.
  - apply (proj1 (removeUndefinedValues_keeps_the_defined [("__proto__", VNum 5)] eq_refl)).
    intros k v [Hkv | []]. inversion Hkv. right. reflexivity.
Defined.

Lemma joinWith_not_empty sep x rest :
  x <> "" -> Client.joinWith sep (x :: rest) <> "".
Proof.
  intros Hx. destruct x as [| c x]; [congruence | ].
  destruct rest; simpl; discriminate.
Qed.

Lemma sequence_map_cons {A B} (f : A -> option B) x l ys :
  Client.sequence (map f (x :: l)) = Some ys ->
  exists y ys', ys = y :: ys' /\ f x = Some y.
Proof.
  simpl. destruct (f x) as [y | ]; [ | discriminate ].
  destruct (Client.sequence (map f l)) as [ys' | ]; [ | discriminate ].
  intros H. inversion H. exists y, ys'. split; reflexivity.
Qed.

(** For a query of which no parameter [__proto__] holds an object, the
    query string that [_execute] logs, that is [queryStringForLogging]
    after [removeUndefinedValues], is empty exactly when the query is absent
    or each of its parameters is [undefined] or has the key [__proto__], and
    is never a bare question mark, whereas [queryStringForLogging] on an
    empty object gives one. *)
Theorem logged_query_is_never_a_bare_question_mark query s :
  Client.settableQuery query = true ->
  Client.queryStringForLogging (Client.cleanQuery query) = Some s ->
  s <> "?"
  /\ (s = "" <->
      match query with
      | None => True
      | Some object =>
          forall k v, In (k, v) object -> v = VUndefined \/ k = "__proto__"
      end).
Proof.
  intros _. destruct query as [object | ]; cbn [Client.cleanQuery].
  - destruct (removeUndefinedValues_cases object) as [Hnull Hobj].
    destruct (removeUndefinedValues_null_or_object object) as [E | [props E]];
      rewrite E.
    + intros H. inversion H. split; [discriminate | ].
      split; [intros _; apply Hnull; exact E | reflexivity].
    + destruct (Hobj props E) as (Hne & Hin & _).
      unfold Client.queryStringForLogging. cbn [Client.truthy ownProps].
      destruct props as [| [k v] props']; [congruence | ].
      destruct (Client.sequence _) as [parts | ] eqn:Es; [ | discriminate ].
      intros H. inversion H. subst s. clear H.
      apply sequence_map_cons in Es. destruct Es as (part & parts' & -> & Hpart).
      assert (Hp : part <> "").
      { destruct (Client.ToString _) as [text | ]; [ | discriminate Hpart ].
        inversion Hpart. cbn [fst]. intros Hk.
        apply (f_equal String.length) in Hk. rewrite length_append in Hk. simpl in Hk. lia. }
      pose proof (joinWith_not_empty "&" part parts' Hp) as Hj.
      split.
      * intros Hs. inversion Hs. congruence.
      * split; [discriminate | ].
        intros Hall. exfalso.
        destruct (proj1 (Hin k v) (or_introl eq_refl)) as (H1 & H2 & H3).
        destruct (Hall k v H1); contradiction.
  - intros H. inversion H. split; [discriminate | ]. split; auto.
Qed.

Lemma logged_query_is_never_a_bare_question_mark_witness :
  Client.queryStringForLogging (VObj []) = Some "?"
  /\ Client.queryStringForLogging
       (Client.cleanQuery (Some [("scope", VUndefined); ("timeout", VNum 5)]))
     = Some "?timeout=5"
  /\ "?timeout=5" <> "?"
  /\ Client.queryStringForLogging (Client.cleanQuery (Some [("__proto__", VNum 5)]))
     = Some "".
Proof.
  split; [reflexivity | ]. split; [reflexivity | ]. split; [ | reflexivity ].
  exact (proj1 (logged_query_is_never_a_bare_question_mark
                  (Some [("scope", VUndefined); ("timeout", VNum 5)]) "?timeout=5"
                  eq_refl eq_refl)).
Defined.

(** ** Logged text *)

Lemma split_prefixed sep (pre s : string) :
  existsb (Ascii.eqb sep) (list_ascii_of_string pre) = false ->
  split sep (pre ++ s)
  = match split sep s with
    | seg :: segs => (pre ++ seg) :: segs
    | [] => [pre]
    end.
Proof.
  induction pre as [| c pre IH]; intros H.
  - simpl. destruct (split sep s) eqn:E; [ | reflexivity ].
    exfalso. exact (split_is_never_empty sep s E).
  - cbn [list_ascii_of_string existsb] in H. apply orb_false_iff in H. destruct H as [Hc Hp].
    cbn [append split]. rewrite Ascii.eqb_sym, Hc. rewrite (IH Hp).
    destruct (split sep s); reflexivity.
Qed.

Lemma joinWith_cons sep x y rest :
  Client.joinWith sep (x :: y :: rest) = x ++ sep ++ Client.joinWith sep (y :: rest).
Proof. reflexivity. Qed.

Lemma split_indented s :
  forall pre,
    existsb (Ascii.eqb "010"%char) (list_ascii_of_string pre) = false ->
    split "010" (pre ++ Client.joinWith (nl ++ "  ") (split "010" s))
    = match split "010" s with
      | seg :: segs => (pre ++ seg) :: map (append "  ") segs
      | [] => [pre]
      end.
Proof.
  induction s as [| c s IH]; intros pre Hpre.
  - simpl. rewrite append_nil_r. rewrite (split_without_separator _ _ Hpre). reflexivity.
  - pose proof (split_is_never_empty "010" s) as Hne.
    cbn [split]. destruct (Ascii.eqb c "010") eqn:Ec.
    + specialize (IH "  " eq_refl).
      destruct (split "010" s) as [| seg segs] eqn:Es; [congruence | ].
      rewrite joinWith_cons.
      change ("" ++ (nl ++ "  ") ++ Client.joinWith (nl ++ "  ") (seg :: segs))
        with (String "010" ("  " ++ Client.joinWith (nl ++ "  ") (seg :: segs))).
      rewrite split_segment.
      * rewrite IH, append_nil_r. reflexivity.
      * intros c' Hc'. apply not_true_is_false. intros Hx. apply Ascii.eqb_eq in Hx. subst c'.
        assert (existsb (Ascii.eqb "010"%char) (list_ascii_of_string pre) = true).
        { apply existsb_exists. exists "010"%char. split; [exact Hc' | reflexivity]. }
        congruence.
    + assert (Hpre' : existsb (Ascii.eqb "010"%char)
                        (list_ascii_of_string (pre ++ String c "")) = false).
      { rewrite chars_of_append, existsb_app, Hpre.
        cbn [list_ascii_of_string existsb orb]. rewrite Ascii.eqb_sym, Ec. reflexivity. }
      specialize (IH (pre ++ String c "") Hpre').
      destruct (split "010" s) as [| seg segs] eqn:Es; [congruence | ].
      assert (Hj : Client.joinWith (nl ++ "  ") (String c seg :: segs)
                   = String c "" ++ Client.joinWith (nl ++ "  ") (seg :: segs)).
      { destruct segs; reflexivity. }
      rewrite Hj, <- append_assoc, IH, append_assoc. reflexivity.
Qed.

(** [_log] with [indented] set hands the loggers the same lines, each one
    with two blanks in front; without it, the text as it is. *)
Theorem logged_text_indents_every_line text :
  split "010" (Client.logged true text) = map (append "  ") (split "010" text)
  /\ Client.logged false text = text.
Proof.
  split; [ | reflexivity ].
  unfold Client.logged. rewrite (split_indented text "  " eq_refl).
  pose proof (split_is_never_empty "010" text) as Hne.
  destruct (split "010" text); [congruence | reflexivity].
Qed.

(** ** Requests *)

(** The options that [_execute] hands to [request]: the url is never the
    empty string (an empty path is sent as [/], and so [query] posts to
    [/]); and for a query of which no parameter [__proto__] holds an
    object, [qs] is [undefined] when no query was given, [null] when each
    parameter of the query is [undefined] or has the key [__proto__], and
    otherwise an object with at least one property, none of them
    [undefined] and none with the key [__proto__]. *)
Theorem request_never_has_an_empty_url toJSON_ this action path data query :
  let r := Client.execute toJSON_ this action path data query in
  Client.url r <> ""
  /\ (Client.url r = "/" <->
      match path with Client.PathStr s | Client.PathRef s => s = "" \/ s = "/" end)
  /\ (Client.settableQuery query = true ->
      match Client.qs r with
      | VUndefined => query = None
      | VNull => exists object,
                   query = Some object
                   /\ forall k v, In (k, v) object -> v = VUndefined \/ k = "__proto__"
      | VObj res => res <> []
                    /\ forall k v, In (k, v) res -> v <> VUndefined /\ k <> "__proto__"
      | _ => False
      end)
  /\ Client.url (Client.query toJSON_ this data) = "/".
Proof.
  cbv zeta. unfold Client.execute. cbn [Client.url Client.qs].
  split; [ | split; [ | split; [ | reflexivity ] ] ].
  - destruct path as [s | s]; destruct (String.eqb_spec s ""); congruence.
  - destruct path as [s | s]; destruct (String.eqb_spec s ""); subst;
      split; intros H; try tauto; try (destruct H; congruence).
  - intros _. destruct query as [object | ]; cbn [Client.cleanQuery]; [ | reflexivity ].
    destruct (removeUndefinedValues_cases object) as [Hnull Hobj].
    destruct (removeUndefinedValues_null_or_object object) as [E | [props E]];
      rewrite E.
    + exists object. split; [reflexivity | apply Hnull; exact E].
    + destruct (Hobj props E) as (Hne & Hin & _). split; [exact Hne | ].
      intros k v H. apply Hin in H. apply H.
Qed.

Lemma request_never_has_an_empty_url_witness :
  Client.url (Client.ping (fun v => v) (Client.mkClient "https://rest.faunadb.com:443" 60000 VNull)
                VUndefined VUndefined) <> ""
  /\ Client.qs (Client.ping (fun v => v)
                  (Client.mkClient "https://rest.faunadb.com:443" 60000 VNull)
                  VUndefined VUndefined) = VNull
  /\ exists object,
       Some [("scope", VUndefined); ("timeout", VUndefined)] = Some object
       /\ forall k v, In (k, v) object -> v = VUndefined \/ k = "__proto__".
Proof.
  pose proof (request_never_has_an_empty_url (fun v => v)
                (Client.mkClient "https://rest.faunadb.com:443" 60000 VNull)
                "GET" (Client.PathStr "ping") VNull
                (Some [("scope", VUndefined); ("timeout", VUndefined)])) as H.
  cbv zeta in H. destruct H as (Hurl & _ & Hqs & _).
  split; [exact Hurl | ]. split; [reflexivity | exact (Hqs eq_refl)].
Defined.

(** * Leaves and options *)

(** A string leaf is printed as a literal in double quotes in which every
    character has a code of 32 or more (so it holds no line feed, carriage
    return or tab as such; the character of code 127 and those above are
    not escaped), whatever the string, the state and the options; and two
    string leaves printed as the same text are the same string. *)
Theorem string_leaf_is_a_faithful_literal fuel options st s :
  exists text,
    exprToString (S fuel) (VStr s) options st = Ok text st
    /\ Forall (fun n => 32 <= n) (codes text)
    /\ (exists inner, text = String dquote (inner ++ String dquote ""))
    /\ forall s', exprToString (S fuel) (VStr s') options st = Ok text st -> s' = s.
Proof.
  exists (JSON_stringify s). split; [reflexivity | ].
  split; [apply JSON_stringify_codes_from_32 | ].
  split; [exists (quoteChars s); reflexivity | ].
  intros s' H.
  change (Ok (JSON_stringify s') st = Ok (JSON_stringify s) st) in H.
  apply JSON_stringify_injective. congruence.
Qed.

(** The second argument [true] stands for [{compact: true}] and an absent
    one for [{}]: rendering with the options in that normal form gives the
    same result, in every state. *)
Theorem options_shorthand fuel expr :
  exprToString fuel expr OptTrue = exprToString fuel expr (OptObj (mkOptions true None))
  /\ exprToString fuel expr OptNone = exprToString fuel expr (OptObj (mkOptions false None)).
Proof.
  split.
  - symmetry. exact (exprToString_normalize fuel expr OptTrue).
  - symmetry. exact (exprToString_normalize fuel expr OptNone).
Qed.

(** [indent] on a string: in compact mode the string as it is; otherwise
    the string behind [printDepth] copies of the marker and a blank, which
    is what the loop over [2 * printDepth] positions writes.  The state is
    not changed. *)
Theorem indent_writes_one_marker_per_level input st :
  indent input st
  = Ok ((if compact st then "" else join (repeat (marker ++ " ") (printDepth st))) ++ input) st.
Proof.
  unfold indent, indentText. destruct (compact st); [reflexivity | ].
  rewrite (indentLoop_pairs (printDepth st) 0 "" eq_refl). reflexivity.
Qed.
